(** * Event-listing application: schemas, save hooks and route handlers

    A shallow embedding of

    - [database/event.model.ts]   ([slugify], the Event schema, its [preSave] hook),
    - [database/booking.model.ts] (the Booking schema, its [preSave] hook),
    - [app/api/events/route.ts]   ([POST]),
    - the [api/events/[slug]] route ([normalizeAndValidateSlug], [GET]),

    together with the properties of these functions.

    Conventions of the embedding.

    - A JavaScript string is a list of code units.  A code unit is an [ascii],
      read as the code unit of the same number (U+0000 to U+00FF); on this range
      [toLowerCase], [trim] and the class [\s] are written out in full.
    - A value that may fail the test [typeof v === 'string'] is an [option]:
      [None] stands for [undefined] or [null].
    - A function that throws returns a sum [exn + A].
    - What the platform decides ([Date] parsing, the outcome of a database
      round trip, the parsing of a request body) is an argument of the
      function that awaits it.

    The models are built with an object-document mapper.  Of that library the
    embedding takes three facts: the setters of a path ([trim], [lowercase])
    run when a value is assigned to it; [save] runs the validators of every
    path ([required], [validate]) before the [pre('save')] hooks of the schema;
    the insert of a document is rejected when the key of a unique index is
    taken.  Time stamps and the version key of a document are left out. *)

From Stdlib Require Import List Bool Ascii String NArith ZArith Lia.
Import ListNotations.

(** ** Strings *)

Definition str : Type := list ascii.

(** A literal of the source. *)
Definition lit (s : string) : str := list_ascii_of_string s.

Definition code (c : ascii) : N := N_of_ascii c.

Definition inRange (lo hi : ascii) (c : ascii) : bool :=
  (code lo <=? code c)%N && (code c <=? code hi)%N.

Definition str_eqb (a b : str) : bool :=
  if list_eq_dec ascii_dec a b then true else false.

(** The class [\s] of a regular expression, which is also what [trim] removes:
    TAB, LF, VT, FF, CR, SPACE and NBSP. *)
Definition isWhiteSpace (c : ascii) : bool :=
  let n := code c in
  ((9 <=? n) && (n <=? 13) || (n =? 32) || (n =? 160))%N.

(** [\d] *)
Definition isDigit : ascii -> bool := inRange "0" "9".
(** [a-z] *)
Definition isLower : ascii -> bool := inRange "a" "z".
(** [A-Z] *)
Definition isUpper : ascii -> bool := inRange "A" "Z".
Definition isDash (c : ascii) : bool := Ascii.eqb c "-".
Definition isAt (c : ascii) : bool := Ascii.eqb c "@".

(** [String.prototype.toLowerCase] on one code unit: A-Z, and the capitals
    U+00C0 to U+00DE except the sign U+00D7, move up by 32. *)
Definition lowerChar (c : ascii) : ascii :=
  let n := code c in
  if ((65 <=? n) && (n <=? 90) || (192 <=? n) && (n <=? 222) && negb (n =? 215))%N
  then ascii_of_N (n + 32)
  else c.

Definition toLowerCase (s : str) : str := map lowerChar s.

Fixpoint dropWhile (p : ascii -> bool) (s : str) : str :=
  match s with
  | [] => []
  | c :: t => if p c then dropWhile p t else s
  end.

Definition trimStart (s : str) : str := dropWhile isWhiteSpace s.
Definition trimEnd (s : str) : str := rev (trimStart (rev s)).
(** [String.prototype.trim] *)
Definition trim (s : str) : str := trimEnd (trimStart s).

(** ** Regular expressions

    The patterns of the source are anchored at both ends and carry no flag, so
    [pattern.test(s)] asks whether the whole of [s] is in the language of the
    pattern.  [test] decides it by derivatives. *)

Module Regex.

Inductive re : Type :=
| Never                       (* matches nothing *)
| Empty                       (* the empty string *)
| Class (p : ascii -> bool)   (* one code unit of a class *)
| Seq (r1 r2 : re)
| Alt (r1 r2 : re)
| Star (r : re).

(** [r+] *)
Definition Plus (r : re) : re := Seq r (Star r).
(** a literal code unit *)
Definition Chr (c : ascii) : re := Class (Ascii.eqb c).

Inductive matches : re -> str -> Prop :=
| MEmpty : matches Empty []
| MClass p c : p c = true -> matches (Class p) [c]
| MSeq r1 r2 s1 s2 : matches r1 s1 -> matches r2 s2 -> matches (Seq r1 r2) (s1 ++ s2)
| MAltL r1 r2 s : matches r1 s -> matches (Alt r1 r2) s
| MAltR r1 r2 s : matches r2 s -> matches (Alt r1 r2) s
| MStarNil r : matches (Star r) []
| MStarApp r s1 s2 : matches r s1 -> matches (Star r) s2 -> matches (Star r) (s1 ++ s2).

Fixpoint nullable (r : re) : bool :=
  match r with
  | Never => false
  | Empty => true
  | Class _ => false
  | Seq r1 r2 => nullable r1 && nullable r2
  | Alt r1 r2 => nullable r1 || nullable r2
  | Star _ => true
  end.

Fixpoint deriv (c : ascii) (r : re) : re :=
  match r with
  | Never => Never
  | Empty => Never
  | Class p => if p c then Empty else Never
  | Seq r1 r2 =>
      if nullable r1 then Alt (Seq (deriv c r1) r2) (deriv c r2)
      else Seq (deriv c r1) r2
  | Alt r1 r2 => Alt (deriv c r1) (deriv c r2)
  | Star r1 => Seq (deriv c r1) (Star r1)
  end.

Fixpoint test (r : re) (s : str) : bool :=
  match s with
  | [] => nullable r
  | c :: t => test (deriv c r) t
  end.

End Regex.

Import Regex.

(** ** [String.prototype.replace] with a global pattern *)

(** [s.replace(/C/g, '')] for a class [C]: every code unit of the class goes. *)
Definition removeAll (p : ascii -> bool) (s : str) : str :=
  filter (fun c => negb (p c)) s.

(** [s.replace(/C+/g, r)]: every maximal run of the class becomes one [r].
    [inRun] tells that the code unit before belongs to the run being replaced. *)
Fixpoint replaceRunsFrom (inRun : bool) (p : ascii -> bool) (r s : str) : str :=
  match s with
  | [] => []
  | c :: t =>
      if p c
      then (if inRun then [] else r) ++ replaceRunsFrom true p r t
      else c :: replaceRunsFrom false p r t
  end.

Definition replaceRuns (p : ascii -> bool) (r s : str) : str :=
  replaceRunsFrom false p r s.

Definition dropFirstIf (p : ascii -> bool) (s : str) : str :=
  match s with
  | c :: t => if p c then t else s
  | [] => []
  end.

(** [s.replace(/^C|C$/g, '')]: one code unit of the class goes at the start,
    and one at the end of what is left. *)
Definition stripEdges (p : ascii -> bool) (s : str) : str :=
  rev (dropFirstIf p (rev (dropFirstIf p s))).

(** ** [database/event.model.ts], lines 37-45: the slug generator *)

(** [a-z0-9\s-] *)
Definition slugKeep (c : ascii) : bool :=
  isLower c || isDigit c || isWhiteSpace c || isDash c.

(** [a-z0-9-] *)
Definition slugChar (c : ascii) : bool :=
  isLower c || isDigit c || isDash c.

Definition slugify (value : str) : str :=
  let s0 := trim (toLowerCase value) in
  let s1 := removeAll (fun c => negb (slugKeep c)) s0 in  (* /[^a-z0-9\s-]/g -> ''  *)
  let s2 := replaceRuns isWhiteSpace (lit "-") s1 in      (* /\s+/g          -> '-' *)
  let s3 := replaceRuns isDash (lit "-") s2 in            (* /-+/g           -> '-' *)
  stripEdges isDash s3.                                   (* /^-|-$/g        -> ''  *)

(** ** The patterns of the source *)

Definition oneOf (set : string) (c : ascii) : bool :=
  existsb (Ascii.eqb c) (lit set).

(** [/^([01]\d|2[0-3]):([0-5]\d)$/], the [timePattern] of the Event hook *)
Definition timePattern : re :=
  Seq (Alt (Seq (Class (oneOf "01")) (Class isDigit))
           (Seq (Chr "2") (Class (inRange "0" "3"))))
      (Seq (Chr ":")
           (Seq (Class (inRange "0" "5")) (Class isDigit))).

(** [[^\s@]] *)
Definition notSpaceNorAt (c : ascii) : bool := negb (isWhiteSpace c || isAt c).

(** [/^[^\s@]+@[^\s@]+\.[^\s@]+$/], the [emailRegex] of the Booking hook *)
Definition emailRegex : re :=
  Seq (Plus (Class notSpaceNorAt))
      (Seq (Chr "@")
           (Seq (Plus (Class notSpaceNorAt))
                (Seq (Chr ".") (Plus (Class notSpaceNorAt))))).

(** [[a-zA-Z0-9._%+-]] *)
Definition emailLocalChar (c : ascii) : bool :=
  isLower c || isUpper c || isDigit c || oneOf "._%+-" c.
(** [[a-zA-Z0-9.-]] *)
Definition emailDomainChar (c : ascii) : bool :=
  isLower c || isUpper c || isDigit c || oneOf ".-" c.
(** [[a-zA-Z]] *)
Definition isLetter (c : ascii) : bool := isLower c || isUpper c.

(** [/^[a-zA-Z0-9._%+-]+@[a-zA-Z0-9.-]+\.[a-zA-Z]{2,}$/], the [emailRegex] of the
    validator of the path [email] of the Booking schema *)
Definition schemaEmailRegex : re :=
  Seq (Plus (Class emailLocalChar))
      (Seq (Chr "@")
           (Seq (Plus (Class emailDomainChar))
                (Seq (Chr ".")
                     (Seq (Class isLetter) (Plus (Class isLetter)))))).

(** [/^[a-z0-9-]+$/], the [slugPattern] of the route *)
Definition slugPattern : re := Plus (Class slugChar).

(** ** Exceptions *)

Definition ObjectId : Type := N.

(** The required string fields of an Event, in the order of [requiredStringFields]. *)
Inductive field : Type :=
| Title | Description | Overview | Image | Venue | Location
| Date | Time | Mode | Audience | Organizer.

Inductive listField : Type := Agenda | Tags.

(** A path of a schema, as a validation error of the library names it. *)
Inductive path : Type :=
| PField (f : field)
| PSlug
| PList (f : listField)
| PEmail.

Inductive exn : Type :=
(* thrown by the hooks of the source *)
| FieldRequired (f : field)        (* Field "f" is required and must be a non-empty string. *)
| NotStringArray (f : listField)   (* Field "f" must be a non-empty array of non-empty strings. *)
| InvalidDate                      (* Invalid date format. Expected a valid date string. *)
| InvalidTime                      (* Invalid time format. Expected HH:MM in 24-hour format. *)
| InvalidEmail                     (* Invalid email format. *)
| EventMissing                     (* Cannot create booking: referenced event does not exist. *)
| TypeError                        (* a method called on undefined *)
(* raised by the library for a declaration of a schema *)
| SchemaValidation (failed : list path)  (* the validators of these paths reject *)
| DuplicateKey                     (* the unique index on slug rejects the insert *)
(* raised by the platform *)
| ConnectionFailed                 (* connectToDatabase rejects *)
| QueryFailed                      (* a database round trip rejects *)
| BodyNotForm.                     (* req.formData() rejects: the body is not a form *)

(** The kinds of errors, under the names of the specification: a field that
    is missing or malformed, a key of a unique index that is taken, a
    reference to a document that is not stored, a database that cannot be
    reached.  The source throws plain errors, told apart by their
    messages; [kindOf] sorts them. *)
Inductive errorKind : Type :=
| ValidationError | ConflictError | ReferenceError | ConnectionError | OtherError.

Definition kindOf (e : exn) : errorKind :=
  match e with
  | FieldRequired _ | NotStringArray _ | InvalidDate | InvalidTime
  | InvalidEmail | SchemaValidation _ => ValidationError
  | DuplicateKey => ConflictError
  | EventMissing => ReferenceError
  | ConnectionFailed | QueryFailed => ConnectionError
  | TypeError | BodyNotForm => OtherError
  end.

Definition bind {A B : Type} (m : exn + A) (k : A -> exn + B) : exn + B :=
  match m with
  | inl e => inl e
  | inr a => k a
  end.

Notation "x <- m ;; k" := (bind m (fun x => k))
  (at level 61, m at next level, right associativity).

Definition throw {A : Type} (e : exn) : exn + A := inl e.
Definition ret {A : Type} (a : A) : exn + A := inr a.

(** ** [Date.prototype.toISOString]

    The time value is a number of milliseconds since the epoch; the date is
    proleptic Gregorian, in UTC. *)

Local Open Scope Z_scope.

Definition msPerDay : Z := 86400000.

Definition civilFromDays (days : Z) : Z * Z * Z :=
  let z := days + 719468 in
  let era := z / 146097 in
  let doe := z - era * 146097 in
  let yoe := (doe - doe / 1460 + doe / 36524 - doe / 146096) / 365 in
  let doy := doe - (365 * yoe + yoe / 4 - yoe / 100) in
  let mp := (5 * doy + 2) / 153 in
  let d := doy - (153 * mp + 2) / 5 + 1 in
  let m := if mp <? 10 then mp + 3 else mp - 9 in
  let y := yoe + era * 400 in
  (if m <=? 2 then y + 1 else y, m, d).

Definition digit (n : Z) : ascii := ascii_of_N (48 + Z.to_N (n mod 10)%Z)%N.

(** [n] in decimal on [width] digits *)
Fixpoint pad (width : nat) (n : Z) : str :=
  match width with
  | O => []
  | S w => pad w (n / 10) ++ [digit n]
  end.

Definition isoYear (y : Z) : str :=
  if (0 <=? y) && (y <=? 9999) then pad 4 y
  else (if y <? 0 then lit "-" else lit "+") ++ pad 6 (Z.abs y).

Definition toISOString (t : Z) : str :=
  let '(y, m, d) := civilFromDays (t / msPerDay) in
  let ms := t mod msPerDay in
  isoYear y ++ lit "-" ++ pad 2 m ++ lit "-" ++ pad 2 d ++ lit "T"
    ++ pad 2 (ms / 3600000) ++ lit ":" ++ pad 2 (ms / 60000 mod 60) ++ lit ":"
    ++ pad 2 (ms / 1000 mod 60) ++ lit "." ++ pad 3 (ms mod 1000) ++ lit "Z".

Local Close Scope Z_scope.

(** ** [database/event.model.ts]: the Event schema and its hook

    [EventAttrs] is the interface of lines 6-21, each field as the hook may
    find it. *)

Record EventAttrs : Type := mkEvent {
  title : option str;
  slug : option str;
  description : option str;
  overview : option str;
  image : option str;
  venue : option str;
  location : option str;
  date : option str;
  time : option str;
  mode : option str;
  audience : option str;
  agenda : option (list (option str));   (* [None]: not an array; an item [None]: not a string *)
  organizer : option str;
  tags : option (list (option str))
}.

(** [event[field]] *)
Definition get (f : field) (e : EventAttrs) : option str :=
  match f with
  | Title => title e | Description => description e | Overview => overview e
  | Image => image e | Venue => venue e | Location => location e
  | Date => date e | Time => time e | Mode => mode e
  | Audience => audience e | Organizer => organizer e
  end.

(** [event[field] = v] *)
Definition set (f : field) (v : option str) (e : EventAttrs) : EventAttrs :=
  let 'mkEvent ti sl de ov im ve lo da tm mo au ag og ta := e in
  match f with
  | Title       => mkEvent v  sl de ov im ve lo da tm mo au ag og ta
  | Description => mkEvent ti sl v  ov im ve lo da tm mo au ag og ta
  | Overview    => mkEvent ti sl de v  im ve lo da tm mo au ag og ta
  | Image       => mkEvent ti sl de ov v  ve lo da tm mo au ag og ta
  | Venue       => mkEvent ti sl de ov im v  lo da tm mo au ag og ta
  | Location    => mkEvent ti sl de ov im ve v  da tm mo au ag og ta
  | Date        => mkEvent ti sl de ov im ve lo v  tm mo au ag og ta
  | Time        => mkEvent ti sl de ov im ve lo da v  mo au ag og ta
  | Mode        => mkEvent ti sl de ov im ve lo da tm v  au ag og ta
  | Audience    => mkEvent ti sl de ov im ve lo da tm mo v  ag og ta
  | Organizer   => mkEvent ti sl de ov im ve lo da tm mo au ag v  ta
  end.

Definition setSlug (v : option str) (e : EventAttrs) : EventAttrs :=
  let 'mkEvent ti _ de ov im ve lo da tm mo au ag og ta := e in
  mkEvent ti v de ov im ve lo da tm mo au ag og ta.

Definition getList (f : listField) (e : EventAttrs) : option (list (option str)) :=
  match f with Agenda => agenda e | Tags => tags e end.

Definition requiredStringFields : list field :=
  [Title; Description; Overview; Image; Venue; Location;
   Date; Time; Mode; Audience; Organizer].

(** [typeof value !== 'string' || value.trim().length === 0] *)
Definition blank (value : option str) : bool :=
  match value with
  | None => true
  | Some v => (List.length (trim v) =? 0)%nat
  end.

(** The loop of [preSave] over [requiredStringFields]. *)
Fixpoint requireStrings (fields : list field) (event : EventAttrs) : exn + EventAttrs :=
  match fields with
  | [] => ret event
  | f :: rest =>
      let value := get f event in
      if blank value then throw (FieldRequired f)
      else requireStrings rest (set f (option_map trim value) event)
  end.

Definition ensureNonEmptyStringArray
    (list : option (list (option str))) (fieldName : listField) : exn + unit :=
  match list with
  | None => throw (NotStringArray fieldName)
  | Some l =>
      if (List.length l =? 0)%nat || existsb blank l
      then throw (NotStringArray fieldName)
      else ret tt
  end.

(** [!event.slug] *)
Definition falsy (v : option str) : bool :=
  match v with
  | None | Some [] => true
  | Some (_ :: _) => false
  end.

(** What the database does during one request: whether [connectToDatabase]
    (of [lib/mongodb]) resolves, and whether the round trips of the models
    are answered. *)
Record Env : Type := mkEnv {
  connects : bool;
  answers : bool
}.

Definition connectToDatabase (env : Env) : exn + unit :=
  if connects env then ret tt else throw ConnectionFailed.

(** a round trip whose answer, when there is one, is [a] *)
Definition roundTrip {A : Type} (env : Env) (a : A) : exn + A :=
  if answers env then ret a else throw QueryFailed.

Section Event.

(** [new Date(s).getTime()], [None] for [NaN]: how a string that is not in
    the ISO format parses is left to the platform. *)
Variable Date_parse : str -> option Z.

(** [new Date(event.date)]; [undefined] gives an invalid date. *)
Definition newDate (v : option str) : option Z :=
  match v with
  | Some s => Date_parse s
  | None => None
  end.

(** The hook [preSave] of lines 94-165; [titleModified] is what
    [event.isModified('title')] answers at line 160.  The two branches on a field that is not a
    string, after the loop has made it one, are there for the types only. *)
Definition preSave (titleModified : bool) (event : EventAttrs) : exn + EventAttrs :=
  event <- requireStrings requiredStringFields event ;;
  _ <- ensureNonEmptyStringArray (agenda event) Agenda ;;
  _ <- ensureNonEmptyStringArray (tags event) Tags ;;
  match newDate (date event) with
  | None => throw InvalidDate
  | Some parsedDate =>
      let event := set Date (Some (toISOString parsedDate)) event in
      match time event with
      | None => throw TypeError
      | Some t =>
          let normalizedTime := trim t in
          if negb (test timePattern normalizedTime) then throw InvalidTime
          else
            let event := set Time (Some normalizedTime) event in
            if titleModified || falsy (slug event)
            then
              match title event with
              | None => throw TypeError
              | Some ti => ret (setSlug (Some (slugify ti)) event)
              end
            else ret event
      end
  end.

(** *** The declarations of the schema, lines 47-85

    The library applies the setters of a path when the document is built,
    and runs the validators of every path before the [pre('save')] hooks of
    the schema; the paths that fail are reported together. *)

(** the paths declared with [trim: true] *)
Definition trimmedFields : list field :=
  [Title; Description; Overview; Image; Venue; Location; Mode; Audience; Organizer].

Definition applySetters (attrs : EventAttrs) : EventAttrs :=
  fold_left (fun e f => set f (option_map trim (get f e)) e) trimmedFields attrs.

(** [required: true] on a string path: neither absent nor empty *)
Definition present (v : option str) : bool := negb (falsy v).

(** [Array.isArray(value) && value.length > 0] *)
Definition nonEmptyArray (v : option (list (option str))) : bool :=
  match v with
  | Some (_ :: _) => true
  | _ => false
  end.

(** the paths of [eventSchema], in the order of the declaration *)
Definition eventPaths : list path :=
  [PField Title; PSlug; PField Description; PField Overview; PField Image;
   PField Venue; PField Location; PField Date; PField Time; PField Mode;
   PField Audience; PList Agenda; PField Organizer; PList Tags].

Definition pathValid (e : EventAttrs) (p : path) : bool :=
  match p with
  | PField f => present (get f e)
  | PSlug => present (slug e)
  | PList f => nonEmptyArray (getList f e)
  | PEmail => true
  end.

Definition validate (e : EventAttrs) : exn + EventAttrs :=
  match filter (fun p => negb (pathValid e p)) eventPaths with
  | [] => ret e
  | failing => throw (SchemaValidation failing)
  end.

(** *** The collection [events] *)

Definition EventDocument : Type := ObjectId * EventAttrs.
Definition Events : Type := list EventDocument.

Definition hasSlug (s : option str) (d : EventDocument) : bool :=
  match s, slug (snd d) with
  | Some a, Some b => str_eqb a b
  | None, None => true
  | _, _ => false
  end.

(** an identifier that no stored document carries *)
Definition freshId (events : Events) : ObjectId :=
  N.succ (fold_right N.max 0%N (map fst events)).

(** The insert, under the unique index [{ slug: 1 }] of lines 50 and 85. *)
Definition insert (env : Env) (events : Events) (e : EventAttrs)
    : exn + (Events * EventDocument) :=
  taken <- roundTrip env (existsb (hasSlug (slug e)) events) ;;
  if taken : bool then throw DuplicateKey
  else let d := (freshId events, e) in ret (events ++ [d], d).

(** [Event.create(attrs)]: a new document has [title] modified. *)
Definition Event_create (env : Env) (events : Events) (attrs : EventAttrs)
    : exn + (Events * EventDocument) :=
  doc <- validate (applySetters attrs) ;;
  doc <- preSave true doc ;;
  insert env events doc.

(** [Event.exists({ _id: id })] *)
Definition Event_exists (env : Env) (events : Events) (id : ObjectId) : exn + bool :=
  roundTrip env (existsb (fun d => (fst d =? id)%N) events).

(** [Event.findOne({ slug: s }).lean()]; the filter [{ slug: null }] selects
    the documents without a slug. *)
Definition Event_findOne (env : Env) (events : Events) (s : option str)
    : exn + option EventDocument :=
  roundTrip env (find (hasSlug s) events).

End Event.

(** ** [database/booking.model.ts]: the Booking schema (lines 22-48) and its
    hook (lines 54-77) *)

Record BookingAttrs : Type := mkBooking {
  eventId : ObjectId;
  email : str
}.

Definition Bookings : Type := list BookingAttrs.

(** The setters of the path [email]: [trim: true], [lowercase: true]. *)
Definition Booking_applySetters (attrs : BookingAttrs) : BookingAttrs :=
  mkBooking (eventId attrs) (trim (toLowerCase (email attrs))).

(** The validators of the path [email]: [required], then the function of
    [validate], which tests the pattern of the schema. *)
Definition emailValidator (email : str) : bool :=
  present (Some email) && test schemaEmailRegex email.

Definition Booking_validate (b : BookingAttrs) : exn + BookingAttrs :=
  if emailValidator (email b) then ret b else throw (SchemaValidation [PEmail]).

(** The hook [preSave] of the Booking schema. *)
Definition Booking_preSave (env : Env) (events : Events) (booking : BookingAttrs)
    : exn + BookingAttrs :=
  let normalizedEmail := toLowerCase (trim (email booking)) in
  if negb (test emailRegex normalizedEmail) then throw InvalidEmail
  else
    let booking := mkBooking (eventId booking) normalizedEmail in
    eventExists <- Event_exists env events (eventId booking) ;;
    if negb eventExists then throw EventMissing
    else ret booking.

(** [Booking.create(attrs)] *)
Definition Booking_create (env : Env) (events : Events) (bookings : Bookings)
    (attrs : BookingAttrs) : exn + (Bookings * BookingAttrs) :=
  doc <- Booking_validate (Booking_applySetters attrs) ;;
  doc <- Booking_preSave env events doc ;;
  doc <- roundTrip env doc ;;
  ret (bookings ++ [doc], doc).

(** ** The route handlers *)

Inductive Body : Type :=
| BError (error : str)                              (* { error } *)
| BMessage (message : str)                          (* { message } *)
| BEvent (message : str) (event : EventDocument)    (* { message, event } *)
| BFailure (message : str) (error : exn).           (* { message, error }, [error] the
                                                       message of the exception caught *)

Record NextResponse : Type := json {
  body : Body;
  status : N
}.

(** *** The route [api/events/[slug]]: [normalizeAndValidateSlug] (lines
    26-43) and [GET] (lines 50-81) *)

Definition jsonError (message : str) (status : N) : NextResponse :=
  json (BError message) status.

Definition normalizeAndValidateSlug (rawSlug : option str) : option str :=
  match rawSlug with
  | None => None
  | Some raw =>
      let slug := toLowerCase (trim raw) in
      if falsy (Some slug) then None
      else if negb (test slugPattern slug) then None
      else Some slug
  end.

(** [!slug || slug.trim() === ""] *)
Definition missingOrBlank (slug : option str) : bool :=
  falsy slug ||
  match slug with
  | Some s => str_eqb (trim s) []
  | None => false
  end.

(** [`${slug}`] *)
Definition interpolate (v : option str) : str :=
  match v with
  | Some s => s
  | None => lit "undefined"
  end.

Definition GET_try (env : Env) (events : Events) (slug : option str) : exn + NextResponse :=
  _ <- connectToDatabase env ;;
  if missingOrBlank slug
  then ret (jsonError (lit "Invalid or missing slug parameter") 404)
  else
    let sanitizedSlug := normalizeAndValidateSlug slug in
    event <- Event_findOne env events sanitizedSlug ;;
    match event with
    | None =>
        ret (jsonError (lit "Event with " ++ interpolate slug ++ lit " not found") 404)
    | Some event => ret (json (BEvent (lit "API fetched successfully") event) 200)
    end.

(** [GET(_request, { params })], with [slug] the parameter of the route *)
Definition GET (env : Env) (events : Events) (slug : option str) : NextResponse :=
  match GET_try env events slug with
  | inr response => response
  | inl _ => jsonError (lit "Failed to fetch event. Please try again later.") 500
  end.

(** *** [app/api/events/route.ts]: [POST] (lines 5-27) *)

(** The entries of a form, in the order of the body. *)
Definition FormData : Type := list (str * str).

(** A request: what [req.formData()] gives, an exception when the body is not
    an encoded form. *)
Record NextRequest : Type := mkRequest {
  formData : exn + FormData
}.

(** The object built from entries; a later entry of a key overrides. *)
Definition Obj : Type := list (str * str).

Definition prop (key : string) (o : Obj) : option str :=
  option_map snd (find (fun kv => str_eqb (fst kv) (lit key)) (rev o)).

(** [Object.fromEntries(formData.entries())]: no entry makes it throw. *)
Definition Object_fromEntries (entries : FormData) : exn + Obj := ret entries.

(** The document the library builds from the object: the paths of the schema
    are read by name, and a value that is not an array is cast to an array of
    one item for a path declared [[String]], which is empty by default. *)
Definition castList (v : option str) : option (list (option str)) :=
  match v with
  | Some s => Some [Some s]
  | None => Some []
  end.

Definition castEvent (o : Obj) : EventAttrs :=
  {| title := prop "title" o;
     slug := prop "slug" o;
     description := prop "description" o;
     overview := prop "overview" o;
     image := prop "image" o;
     venue := prop "venue" o;
     location := prop "location" o;
     date := prop "date" o;
     time := prop "time" o;
     mode := prop "mode" o;
     audience := prop "audience" o;
     agenda := castList (prop "agenda" o);
     organizer := prop "organizer" o;
     tags := castList (prop "tags" o) |}.

Section Handlers.

Variable Date_parse : str -> option Z.

Definition POST_try (env : Env) (events : Events) (req : NextRequest)
    : exn + (NextResponse * Events) :=
  _ <- connectToDatabase env ;;
  formData <- formData req ;;
  match Object_fromEntries formData with
  | inl _ => ret (json (BMessage (lit "Invalid Form Data")) 400, events)
  | inr event =>
      created <- Event_create Date_parse env events (castEvent event) ;;
      let '(events', createdEvent) := created in
      ret (json (BEvent (lit "Event created successfully") createdEvent) 201, events')
  end.

(** [POST(req)]; the second component is the collection after the request. *)
Definition POST (env : Env) (events : Events) (req : NextRequest)
    : NextResponse * Events :=
  match POST_try env events req with
  | inr r => r
  | inl e => (json (BFailure (lit "Event Creation Failed") e) 500, events)
  end.

End Handlers.

(** ** Predicates of the statements *)

Definition startsWith (p : ascii -> bool) (s : str) : bool :=
  match s with
  | c :: _ => p c
  | [] => false
  end.

Definition endsWith (p : ascii -> bool) (s : str) : bool := startsWith p (rev s).

(** two code units of the class side by side *)
Fixpoint hasDouble (p : ascii -> bool) (s : str) : bool :=
  match s with
  | c :: t => p c && startsWith p t || hasDouble p t
  | [] => false
  end.

Definition allOf (p : ascii -> bool) (s : str) : Prop := Forall (fun c => p c = true) s.

(** Inclusion of the languages of two patterns. *)
Definition within (r r' : re) : Prop := forall s, matches r s -> matches r' s.

(** [a-z0-9] *)
Definition isAlnum (c : ascii) : bool := isLower c || isDigit c.





(** The required strings after the loop of [preSave]: each one trimmed. *)
Definition trimStrings (e : EventAttrs) : EventAttrs :=
  fold_left (fun e f => set f (option_map trim (get f e)) e) requiredStringFields e.

(** Every required string field holds a string that is not blank. *)
Definition stringsPresent (e : EventAttrs) : bool :=
  forallb (fun f => negb (blank (get f e))) requiredStringFields.

(** A non-empty collection of non-empty strings, in the words of the
    specification: an array, of strings only, with at least one item, none of
    them empty once trimmed. *)
Definition nonEmptyStrings (l : option (list (option str))) : Prop :=
  exists items,
    l = Some (map Some items) /\ items <> [] /\ Forall (fun s => trim s <> []) items.

(** Every stored Event has a slug, and no two share one. *)
Definition slugsPresent (events : Events) : Prop :=
  Forall (fun d => slug (snd d) <> None) events.

Definition slugsUnique (events : Events) : Prop :=
  NoDup (map (fun d => slug (snd d)) events).

(** The collections that creations build, from the empty one. *)
Inductive created (Date_parse : str -> option Z) : Events -> Prop :=
| created_empty : created Date_parse []
| created_more env events attrs events' d :
    created Date_parse events ->
    Event_create Date_parse env events attrs = inr (events', d) ->
    created Date_parse events'.

(** [failsWith k r]: the operation throws, an error of the kind [k]. *)
Definition failsWith {A : Type} (k : errorKind) (r : exn + A) : Prop :=
  exists x, r = inl x /\ kindOf x = k.

(** What the hook leaves in the document when it succeeds. *)
Definition saved (titleModified : bool) (ti tm : str) (parsedDate : Z) (e : EventAttrs)
    : EventAttrs :=
  let e2 := set Time (Some (trim tm))
              (set Date (Some (toISOString parsedDate)) (trimStrings e)) in
  if titleModified || falsy (slug e)
  then setSlug (Some (slugify (trim ti))) e2
  else e2.

(** An Event with this identifier is stored. *)
Definition eventStored (events : Events) (id : ObjectId) : Prop :=
  exists d, In d events /\ fst d = id.

(** ** A platform for the examples

    It parses the date-only form [YYYY-MM-DD] of the ISO format, which is
    midnight UTC of that day, and no other string. *)

Local Open Scope Z_scope.

Definition digitValue (c : ascii) : Z := Z.of_N (code c) - 48.

Definition daysFromCivil (y m d : Z) : Z :=
  let y := if m <=? 2 then y - 1 else y in
  let era := y / 400 in
  let yoe := y - era * 400 in
  let doy := (153 * (if 2 <? m then m - 3 else m + 9) + 2) / 5 + d - 1 in
  let doe := yoe * 365 + yoe / 4 - yoe / 100 + doy in
  era * 146097 + doe - 719468.

Definition isLeap (y : Z) : bool :=
  (y mod 4 =? 0) && (negb (y mod 100 =? 0) || (y mod 400 =? 0)).

Definition daysInMonth (y m : Z) : Z :=
  if m =? 2 then (if isLeap y then 29 else 28)
  else if (m =? 4) || (m =? 6) || (m =? 9) || (m =? 11) then 30
  else 31.

Definition parseIsoDate (s : str) : option Z :=
  match s with
  | [y1; y2; y3; y4; s1; m1; m2; s2; d1; d2] =>
      if forallb isDigit [y1; y2; y3; y4; m1; m2; d1; d2] && isDash s1 && isDash s2
      then
        let y := digitValue y1 * 1000 + digitValue y2 * 100
                 + digitValue y3 * 10 + digitValue y4 in
        let m := digitValue m1 * 10 + digitValue m2 in
        let d := digitValue d1 * 10 + digitValue d2 in
        if (1 <=? m) && (m <=? 12) && (1 <=? d) && (d <=? daysInMonth y m)
        then Some (daysFromCivil y m d * msPerDay)
        else None
      else None
  | _ => None
  end.

Local Close Scope Z_scope.

(** ** Values for the examples *)

Definition online : Env := mkEnv true true.

Definition sampleEvent : EventAttrs :=
  {| title := Some (lit " Hello, World! ");
     slug := Some (lit "draft");
     description := Some (lit "A meetup");
     overview := Some (lit "Talks and food");
     image := Some (lit "/images/meetup.png");
     venue := Some (lit "Hall 1");
     location := Some (lit "Hanoi");
     date := Some (lit "2025-11-03");
     time := Some (lit " 09:30 ");
     mode := Some (lit "offline");
     audience := Some (lit "developers");
     agenda := Some [Some (lit "Doors open"); Some (lit "Keynote")];
     organizer := Some (lit "The team");
     tags := Some [Some (lit "web")] |}.

(** the form of [sampleEvent], one entry a field *)
Definition sampleForm : FormData :=
  [(lit "title", lit " Hello, World! "); (lit "slug", lit "draft");
   (lit "description", lit "A meetup"); (lit "overview", lit "Talks and food");
   (lit "image", lit "/images/meetup.png"); (lit "venue", lit "Hall 1");
   (lit "location", lit "Hanoi"); (lit "date", lit "2025-11-03");
   (lit "time", lit " 09:30 "); (lit "mode", lit "offline");
   (lit "audience", lit "developers"); (lit "agenda", lit "Keynote");
   (lit "organizer", lit "The team"); (lit "tags", lit "web")].

(** the collection after [sampleEvent] has been created in an empty one *)
Definition sampleEvents : Events :=
  match Event_create parseIsoDate online [] sampleEvent with
  | inr (events, _) => events
  | inl _ => []
  end.

(** ** [lib/mongodb]: the cached connection

    The module keeps one cache object, shared through [globalThis._mongoose].
    A call of [connectToDatabase] runs without interruption up to its
    [await] (lines 50-67), and goes on (line 70) once the promise of the
    cache is settled.  A process is the cache together with the calls in
    flight; [attempts] counts the calls of [mongoose.connect]. *)

Inductive Mongoose : Type := mongooseInstance.

Inductive PromiseState : Type :=
| Pending
| Fulfilled (m : Mongoose)
| Rejected (e : exn).

Record MongooseCache : Type := mkCache {
  conn : option Mongoose;
  promise : option PromiseState
}.

(** How a call ends: with the connection, with the rejection of the promise,
    or with the error of line 65. *)
Inductive Outcome : Type :=
| Connected (m : Mongoose)
| Failed (e : exn)
| UriMissing.

Record Process : Type := mkProcess {
  MONGODB_URI : option str;
  cached : MongooseCache;
  attempts : nat;
  waiting : list nat;                 (* the calls suspended at line 70 *)
  returned : list (nat * Outcome)     (* the calls that ended, the last one first *)
}.

(** The module is evaluated (lines 9-13 and 35-38): it throws when the URI is
    not set, and takes the cache of [globalThis._mongoose] when there is one. *)
Definition loadModule (uri : option str) (global : option MongooseCache) : option Process :=
  if falsy uri then None
  else
    let cache := match global with
                 | Some c => c
                 | None => mkCache None None
                 end in
    Some (mkProcess uri cache 0 [] []).

(** Lines 50-67 for the call [k]. *)
Definition call (k : nat) (p : Process) : Process :=
  match conn (cached p) with
  | Some m =>
      mkProcess (MONGODB_URI p) (cached p) (attempts p) (waiting p)
        ((k, Connected m) :: returned p)
  | None =>
      match promise (cached p) with
      | None =>
          let cache := mkCache (conn (cached p)) (Some Pending) in
          if falsy (MONGODB_URI p)
          then mkProcess (MONGODB_URI p) cache (S (attempts p)) (waiting p)
                 ((k, UriMissing) :: returned p)
          else mkProcess (MONGODB_URI p) cache (S (attempts p)) (k :: waiting p)
                 (returned p)
      | Some _ =>
          mkProcess (MONGODB_URI p) (cached p) (attempts p) (k :: waiting p) (returned p)
      end
  end.

(** The promise of [mongoose.connect] settles. *)
Definition settle (o : exn + Mongoose) (p : Process) : Process :=
  match promise (cached p) with
  | Some Pending =>
      let state := match o with
                   | inr m => Fulfilled m
                   | inl e => Rejected e
                   end in
      mkProcess (MONGODB_URI p) (mkCache (conn (cached p)) (Some state))
        (attempts p) (waiting p) (returned p)
  | _ => p
  end.

Definition withdraw (k : nat) (l : list nat) : list nat :=
  filter (fun j => negb (j =? k)%nat) l.

(** Lines 70-71 for the call [k], once the promise is settled. *)
Definition resume (k : nat) (p : Process) : Process :=
  if existsb (Nat.eqb k) (waiting p)
  then
    match promise (cached p) with
    | Some (Fulfilled m) =>
        mkProcess (MONGODB_URI p) (mkCache (Some m) (promise (cached p)))
          (attempts p) (withdraw k (waiting p)) ((k, Connected m) :: returned p)
    | Some (Rejected e) =>
        mkProcess (MONGODB_URI p) (cached p)
          (attempts p) (withdraw k (waiting p)) ((k, Failed e) :: returned p)
    | _ => p
    end
  else p.

Inductive Action : Type :=
| Call (k : nat)
| Settle (o : exn + Mongoose)
| Resume (k : nat).

Definition act (a : Action) (p : Process) : Process :=
  match a with
  | Call k => call k p
  | Settle o => settle o p
  | Resume k => resume k p
  end.

(** The actions of a list, the first one first. *)
Definition run (actions : list Action) (p : Process) : Process :=
  fold_left (fun p a => act a p) actions p.

(** ** The page [events/[slug]]

    The page fetches the route of the slug, reads [event] off the body of the
    response and shows the page of a missing Event when there is none. *)

Inductive Page : Type := NotFoundPage | EventSection.

(** [const { event } = await request.json()] *)
Definition eventOf (b : Body) : option EventDocument :=
  match b with
  | BEvent _ event => Some event
  | _ => None
  end.

(** [EventDetailsPage], for the response that [fetch] gives. *)
Definition EventDetailsPage (response : NextResponse) : Page :=
  match eventOf (body response) with
  | None => NotFoundPage
  | Some _ => EventSection
  end.

(** ** Sequences of creations

    The two models offer [create] alone; a database goes from state to state
    by creations, each of which stores a document or leaves the state as it
    is. *)

Record Database : Type := mkDatabase {
  eventsOf : Events;
  bookingsOf : Bookings
}.

Inductive Operation : Type :=
| CreateEvent (env : Env) (attrs : EventAttrs)
| CreateBooking (env : Env) (attrs : BookingAttrs).

Section Operations.

Variable Date_parse : str -> option Z.

Definition perform (db : Database) (op : Operation) : Database :=
  match op with
  | CreateEvent env attrs =>
      match Event_create Date_parse env (eventsOf db) attrs with
      | inr (events', _) => mkDatabase events' (bookingsOf db)
      | inl _ => db
      end
  | CreateBooking env attrs =>
      match Booking_create env (eventsOf db) (bookingsOf db) attrs with
      | inr (bookings', _) => mkDatabase (eventsOf db) bookings'
      | inl _ => db
      end
  end.

Definition performAll (ops : list Operation) (db : Database) : Database :=
  fold_left perform ops db.

End Operations.

(** ** More predicates of the statements *)


(** The first required string field that is blank, in the order of the loop. *)
Definition firstBlank (e : EventAttrs) : option field :=
  find (fun f => blank (get f e)) requiredStringFields.

(** A stored Event as the hook leaves it. *)
Definition wellFormed (doc : EventAttrs) : Prop :=
  stringsPresent doc = true
  /\ trimStrings doc = doc
  /\ nonEmptyStrings (agenda doc) /\ nonEmptyStrings (tags doc)
  /\ (exists t, date doc = Some (toISOString t))
  /\ (exists tm, time doc = Some tm /\ test timePattern tm = true)
  /\ (exists ti, title doc = Some ti /\ slug doc = Some (slugify ti)).

(** A stored Booking as the validators and the hook leave it. *)
Definition bookingSound (events : Events) (b : BookingAttrs) : Prop :=
  eventStored events (eventId b)
  /\ toLowerCase (trim (email b)) = email b
  /\ test schemaEmailRegex (email b) = true
  /\ test emailRegex (email b) = true.

(** A database whose Events come from creations and whose Bookings are
    sound. *)
Definition soundDatabase (Date_parse : str -> option Z) (db : Database) : Prop :=
  created Date_parse (eventsOf db)
  /\ Forall (bookingSound (eventsOf db)) (bookingsOf db).

(** The cache and the calls that ended tell one story. *)
Definition coherent (p : Process) : Prop :=
  (attempts p <= 1)%nat
  /\ (promise (cached p) = None <-> attempts p = 0%nat)
  /\ (forall m, conn (cached p) = Some m -> promise (cached p) = Some (Fulfilled m))
  /\ (promise (cached p) = None -> waiting p = [])
  /\ (forall k o, In (k, o) (returned p) ->
        match o with
        | Connected m => promise (cached p) = Some (Fulfilled m)
        | Failed e => promise (cached p) = Some (Rejected e)
        | UriMissing => False
        end).

(** A platform for the examples that parses the ISO strings of
    [toISOString] for the years 0 to 9999, and the date-only form. *)
Definition parseIsoInstant (s : str) : option Z :=
  match parseIsoDate s with
  | Some t => Some t
  | None =>
      match parseIsoDate (firstn 10 s), skipn 10 s with
      | Some day, [sep; h1; h2; c1; m1; m2; c2; s1; s2; dot; f1; f2; f3; z] =>
          if forallb isDigit [h1; h2; m1; m2; s1; s2; f1; f2; f3]
             && Ascii.eqb sep "T" && Ascii.eqb c1 ":" && Ascii.eqb c2 ":"
             && Ascii.eqb dot "." && Ascii.eqb z "Z"
          then
            Some (day
                  + (digitValue h1 * 10 + digitValue h2) * 3600000
                  + (digitValue m1 * 10 + digitValue m2) * 60000
                  + (digitValue s1 * 10 + digitValue s2) * 1000
                  + (digitValue f1 * 100 + digitValue f2 * 10 + digitValue f3))%Z
          else None
      | _, _ => None
      end
  end.

(** ** Theorems about strings and regular expressions *)

Lemma str_eqb_eq (a b : str) : str_eqb a b = true <-> a = b.
Proof.
  unfold str_eqb. destruct (list_eq_dec ascii_dec a b); split; congruence.
Qed.

Module RegexFacts.

Lemma seq_inv r1 r2 s :
  matches (Seq r1 r2) s -> exists s1 s2, s = s1 ++ s2 /\ matches r1 s1 /\ matches r2 s2.
Proof. intro H. inversion H; subst. eauto. Qed.

Lemma alt_inv r1 r2 s : matches (Alt r1 r2) s -> matches r1 s \/ matches r2 s.
Proof. intro H. inversion H; subst; auto. Qed.

Lemma class_inv p s : matches (Class p) s -> exists c, s = [c] /\ p c = true.
Proof. intro H. inversion H; subst. eauto. Qed.

Lemma never_inv s : ~ matches Never s.
Proof. intro H. inversion H. Qed.

Lemma empty_inv s : matches Empty s -> s = [].
Proof. intro H. now inversion H. Qed.

Lemma seq_cons r1 r2 c s1 s2 :
  matches r1 (c :: s1) -> matches r2 s2 -> matches (Seq r1 r2) (c :: s1 ++ s2).
Proof. intros H1 H2. exact (MSeq _ _ _ _ H1 H2). Qed.

Lemma nullable_spec r : nullable r = true <-> matches r [].
Proof.
  induction r as [| |p|r1 IH1 r2 IH2|r1 IH1 r2 IH2|r IH]; simpl.
  - split; [discriminate|]. intro H. now apply never_inv in H.
  - split; [constructor|reflexivity].
  - split; [discriminate|]. intro H.
    apply class_inv in H as (c & E & _). discriminate.
  - rewrite andb_true_iff, IH1, IH2. split.
    + intros [H1 H2]. exact (MSeq _ _ _ _ H1 H2).
    + intro H. apply seq_inv in H as (s1 & s2 & E & H1 & H2).
      symmetry in E. apply app_eq_nil in E as [-> ->]. auto.
  - rewrite orb_true_iff, IH1, IH2. split.
    + intros [H|H]; [now apply MAltL|now apply MAltR].
    + apply alt_inv.
  - split; [constructor|reflexivity].
Qed.

(** A non-empty match of [Star r] starts with a non-empty match of [r]. *)
Lemma star_cons r s :
  matches (Star r) s -> forall c t, s = c :: t ->
  exists t1 t2, t = t1 ++ t2 /\ matches r (c :: t1) /\ matches (Star r) t2.
Proof.
  intro H. remember (Star r) as q eqn:Hq. revert Hq.
  induction H as [|p0 c0 P0|q1 q2 s1 s2 M1 _ M2 _|q1 q2 s0 M _|q1 q2 s0 M _| |q s1 s2 H1 _ H2 IH2];
    intros Hq c t E; try discriminate.
  - injection Hq as ->.
    destruct s1 as [|c1 t1]; simpl in E.
    + now apply IH2.
    + injection E as -> <-. exists t1, s2. auto.
Qed.

Lemma deriv_spec c r : forall s, matches (deriv c r) s <-> matches r (c :: s).
Proof.
  induction r as [| |p|r1 IH1 r2 IH2|r1 IH1 r2 IH2|r IH]; simpl; intro s.
  - split; intro H; now apply never_inv in H.
  - split; intro H; [now apply never_inv in H|apply empty_inv in H; discriminate].
  - destruct (p c) eqn:E; split; intro H.
    + apply empty_inv in H as ->. now constructor.
    + apply class_inv in H as (c' & E' & _). injection E' as Ec Es. subst. constructor.
    + now apply never_inv in H.
    + apply class_inv in H as (c' & E' & P). injection E' as Ec Es. subst. congruence.
  - assert (L : matches (Seq (deriv c r1) r2) s -> matches (Seq r1 r2) (c :: s)).
    { intro H. apply seq_inv in H as (s1 & s2 & -> & H1 & H2).
      apply seq_cons; [now apply IH1|assumption]. }
    assert (R : matches (Seq r1 r2) (c :: s) ->
                matches (Seq (deriv c r1) r2) s \/ (matches r1 [] /\ matches r2 (c :: s))).
    { intro H. apply seq_inv in H as (s1 & s2 & E & H1 & H2).
      destruct s1 as [|c1 t1]; simpl in E.
      - right. subst s2. auto.
      - left. injection E as <- ->. constructor; [now apply IH1|assumption]. }
    destruct (nullable r1) eqn:N.
    + split; intro H.
      * apply alt_inv in H as [H|H]; [now apply L|].
        apply (MSeq r1 r2 [] (c :: s)); [now apply nullable_spec|now apply IH2].
      * destruct (R H) as [H1|[_ H2]]; [now apply MAltL|apply MAltR; now apply IH2].
    + split; [exact L|]. intro H. destruct (R H) as [H1|[H1 _]]; [exact H1|].
      apply nullable_spec in H1. congruence.
  - split; intro H.
    + apply alt_inv in H as [H|H]; [apply MAltL; now apply IH1|apply MAltR; now apply IH2].
    + apply alt_inv in H as [H|H]; [apply MAltL; now apply IH1|apply MAltR; now apply IH2].
  - split; intro H.
    + apply seq_inv in H as (s1 & s2 & -> & H1 & H2).
      apply (MStarApp r (c :: s1) s2); [now apply IH|assumption].
    + destruct (star_cons _ _ H _ _ eq_refl) as (t1 & t2 & -> & H1 & H2).
      constructor; [now apply IH|assumption].
Qed.

(** [test] decides membership in the language of the pattern. *)
Theorem test_spec s : forall r, test r s = true <-> matches r s.
Proof.
  induction s as [|c t IH]; intro r; simpl.
  - apply nullable_spec.
  - rewrite IH. apply deriv_spec.
Qed.

End RegexFacts.
(** ** Code units *)

Ltac by_code_unit c :=
  destruct c as [[] [] [] [] [] [] [] []]; vm_compute;
  try reflexivity; try discriminate; try congruence; auto.

Lemma lowerChar_idem c : lowerChar (lowerChar c) = lowerChar c.
Proof. by_code_unit c. Qed.

Lemma isWhiteSpace_lowerChar c : isWhiteSpace (lowerChar c) = isWhiteSpace c.
Proof. by_code_unit c. Qed.

Lemma slugChar_lower c : slugChar c = true -> lowerChar c = c.
Proof. by_code_unit c. Qed.

Lemma slugChar_keep c : slugChar c = true -> slugKeep c = true.
Proof. by_code_unit c. Qed.

Lemma slugChar_not_space c : slugChar c = true -> isWhiteSpace c = false.
Proof. by_code_unit c. Qed.

Lemma slugKeep_cases c :
  slugKeep c = true -> isWhiteSpace c = true \/ slugChar c = true.
Proof. by_code_unit c. Qed.

Lemma isDash_eq c : isDash c = true -> c = "-"%char.
Proof. by_code_unit c. Qed.

Lemma isDash_slugChar c : isDash c = true -> slugChar c = true.
Proof. by_code_unit c. Qed.

Lemma isAlnum_slugChar c : isAlnum c = true -> slugChar c = true.
Proof. by_code_unit c. Qed.

Lemma isAlnum_not_dash c : isAlnum c = true -> isDash c = false.
Proof. by_code_unit c. Qed.




Lemma not_alnum_slugChar c :
  isAlnum c = false -> slugChar c = true -> isDash c = true.
Proof. by_code_unit c. Qed.

(** ** Prefixes, suffixes and runs *)

Lemma startsWith_app p (a b : str) : a <> [] -> startsWith p (a ++ b) = startsWith p a.
Proof. destruct a; [congruence|reflexivity]. Qed.

Lemma endsWith_rev p s : endsWith p (rev s) = startsWith p s.
Proof. unfold endsWith. now rewrite rev_involutive. Qed.

Lemma endsWith_cons p c t :
  endsWith p (c :: t) = match t with [] => p c | _ => endsWith p t end.
Proof.
  unfold endsWith. simpl. destruct t as [|d t]; [reflexivity|].
  apply startsWith_app. simpl. now destruct (rev t).
Qed.

Lemma endsWith_app p (a b : str) : b <> [] -> endsWith p (a ++ b) = endsWith p b.
Proof.
  intro H. unfold endsWith. rewrite rev_app_distr. apply startsWith_app.
  intro E. apply H. apply (f_equal (@rev ascii)) in E. now rewrite rev_involutive in E.
Qed.

Lemma allOf_app p (a b : str) : allOf p (a ++ b) <-> allOf p a /\ allOf p b.
Proof. apply Forall_app. Qed.

Lemma allOf_rev p (s : str) : allOf p s -> allOf p (rev s).
Proof. apply Forall_rev. Qed.

Lemma allOf_startsWith p q (s : str) :
  allOf p s -> (forall c, p c = true -> q c = false) -> startsWith q s = false.
Proof. intros H I. destruct H; simpl; auto. Qed.

Lemma dropWhile_id p s : startsWith p s = false -> dropWhile p s = s.
Proof. destruct s as [|c t]; simpl; [reflexivity|]. now intros ->. Qed.

Lemma dropWhile_starts p s : startsWith p (dropWhile p s) = false.
Proof.
  induction s as [|c t IH]; simpl; [reflexivity|].
  destruct (p c) eqn:E; [exact IH|]. simpl. exact E.
Qed.

Lemma dropWhile_split p s : exists l, s = l ++ dropWhile p s /\ allOf p l.
Proof.
  induction s as [|c t (l & E & A)]; simpl.
  - exists []. split; [reflexivity|constructor].
  - destruct (p c) eqn:P.
    + exists (c :: l). simpl. split; [now rewrite <- E|now constructor].
    + exists []. split; [reflexivity|constructor].
Qed.

Lemma dropWhile_map p f s :
  (forall c, p (f c) = p c) -> dropWhile p (map f s) = map f (dropWhile p s).
Proof.
  intro H. induction s as [|c t IH]; simpl; [reflexivity|].
  rewrite H. now destruct (p c).
Qed.

(** ** [trim] and [toLowerCase] *)

Lemma trim_id s :
  startsWith isWhiteSpace s = false -> endsWith isWhiteSpace s = false -> trim s = s.
Proof.
  intros H1 H2. unfold trim, trimEnd, trimStart.
  rewrite (dropWhile_id _ _ H1), (dropWhile_id _ _ H2). apply rev_involutive.
Qed.

Lemma trim_ends s : endsWith isWhiteSpace (trim s) = false.
Proof. unfold trim, trimEnd, trimStart. rewrite endsWith_rev. apply dropWhile_starts. Qed.

Lemma trim_starts s : startsWith isWhiteSpace (trim s) = false.
Proof.
  unfold trim, trimEnd, trimStart.
  pose proof (dropWhile_starts isWhiteSpace s) as H.
  set (s1 := dropWhile isWhiteSpace s) in *.
  destruct (dropWhile_split isWhiteSpace (rev s1)) as (l & E & _).
  set (r := dropWhile isWhiteSpace (rev s1)) in *.
  apply (f_equal (@rev ascii)) in E. rewrite rev_involutive, rev_app_distr in E.
  destruct r as [|c r']; [reflexivity|].
  rewrite E in H. rewrite startsWith_app in H; [exact H|].
  simpl. now destruct (rev r').
Qed.

Lemma trim_idem s : trim (trim s) = trim s.
Proof. apply trim_id; [apply trim_starts|apply trim_ends]. Qed.

Lemma trim_toLowerCase s : trim (toLowerCase s) = toLowerCase (trim s).
Proof.
  unfold trim, trimEnd, trimStart, toLowerCase.
  rewrite (dropWhile_map _ _ _ isWhiteSpace_lowerChar), <- map_rev,
          (dropWhile_map _ _ _ isWhiteSpace_lowerChar).
  apply eq_sym, map_rev.
Qed.

Lemma toLowerCase_idem s : toLowerCase (toLowerCase s) = toLowerCase s.
Proof.
  unfold toLowerCase. rewrite map_map. apply map_ext. apply lowerChar_idem.
Qed.

Lemma toLowerCase_id p s :
  allOf p s -> (forall c, p c = true -> lowerChar c = c) -> toLowerCase s = s.
Proof.
  intros A H. induction A as [|c t P _ IH]; simpl; [reflexivity|].
  now rewrite (H _ P), IH.
Qed.

(** ** [replace] *)

Lemma removeAll_all keep s : allOf keep (removeAll (fun c => negb (keep c)) s).
Proof.
  unfold removeAll, allOf. apply Forall_forall. intros c H.
  apply filter_In in H as [_ H]. now rewrite negb_involutive in H.
Qed.

Lemma removeAll_id keep s :
  allOf keep s -> removeAll (fun c => negb (keep c)) s = s.
Proof.
  intro A. induction A as [|c t P _ IH]; simpl; [reflexivity|].
  rewrite P. simpl. now f_equal.
Qed.

Lemma replaceRuns_none b p r s :
  Forall (fun c => p c = false) s -> replaceRunsFrom b p r s = s.
Proof.
  intro A. revert b. induction A as [|c t P _ IH]; intro b; simpl; [reflexivity|].
  rewrite P. now rewrite IH.
Qed.

Lemma replaceRuns_all q b p r s :
  allOf q r -> Forall (fun c => p c = false -> q c = true) s ->
  allOf q (replaceRunsFrom b p r s).
Proof.
  intros R A. revert b. induction A as [|c t P _ IH]; intro b; simpl; [constructor|].
  destruct (p c) eqn:E.
  - apply allOf_app. split; [destruct b; [constructor|exact R]|apply IH].
  - constructor; [now apply P|apply IH].
Qed.

Lemma collapse_shape b s :
  hasDouble isDash (replaceRunsFrom b isDash (lit "-") s) = false
  /\ (b = true -> startsWith isDash (replaceRunsFrom b isDash (lit "-") s) = false).
Proof.
  change (lit "-") with ["-"%char].
  revert b. induction s as [|c t IH]; intro b; simpl; [auto|].
  destruct (isDash c) eqn:E.
  - destruct (IH true) as [D S]. destruct b; simpl.
    + auto.
    + rewrite D, (S eq_refl). split; [reflexivity|discriminate].
  - destruct (IH false) as [D _]. simpl. rewrite E, D. auto.
Qed.

Lemma collapse_id b s :
  hasDouble isDash s = false -> (b = true -> startsWith isDash s = false) ->
  replaceRunsFrom b isDash (lit "-") s = s.
Proof.
  change (lit "-") with ["-"%char].
  revert b. induction s as [|c t IH]; intros b D S; simpl; [reflexivity|].
  simpl in D. apply orb_false_iff in D as [D1 D2].
  destruct (isDash c) eqn:E.
  - destruct b; [simpl in S; rewrite E in S; now specialize (S eq_refl)|].
    simpl in D1. rewrite (isDash_eq _ E). simpl. f_equal. apply IH; auto.
  - f_equal. apply IH; [exact D2|discriminate].
Qed.

Lemma hasDouble_app p (a b : str) :
  hasDouble p (a ++ b) = hasDouble p a || hasDouble p b || endsWith p a && startsWith p b.
Proof.
  induction a as [|c t IH]; simpl.
  - now rewrite orb_false_r.
  - rewrite IH, endsWith_cons. destruct t as [|d t']; simpl.
    + destruct (p c), (hasDouble p b), (startsWith p b); reflexivity.
    + destruct (p c), (p d), (hasDouble p (d :: t')), (hasDouble p b),
        (endsWith p (d :: t')), (startsWith p b); reflexivity.
Qed.

Lemma hasDouble_rev p s : hasDouble p (rev s) = hasDouble p s.
Proof.
  induction s as [|c t IH]; simpl; [reflexivity|].
  rewrite hasDouble_app, IH, endsWith_rev. simpl.
  destruct (p c), (startsWith p t), (hasDouble p t); reflexivity.
Qed.

Lemma dropFirstIf_shape p s :
  hasDouble p s = false ->
  hasDouble p (dropFirstIf p s) = false /\ startsWith p (dropFirstIf p s) = false.
Proof.
  destruct s as [|c t]; simpl; [auto|]. intro D.
  apply orb_false_iff in D as [D1 D2].
  destruct (p c) eqn:E; simpl in *.
  - auto.
  - rewrite E, D2. auto.
Qed.

Lemma dropFirstIf_ends p s :
  endsWith p s = false -> endsWith p (dropFirstIf p s) = false.
Proof.
  destruct s as [|c t]; simpl; [auto|]. intro H.
  destruct (p c) eqn:E; [|exact H].
  rewrite endsWith_cons in H. destruct t; [congruence|exact H].
Qed.

Lemma dropFirstIf_all q p s : allOf q s -> allOf q (dropFirstIf p s).
Proof.
  intro A. destruct A as [|c t Q A]; simpl; [constructor|].
  destruct (p c); [exact A|now constructor].
Qed.

Lemma dropFirstIf_id p s : startsWith p s = false -> dropFirstIf p s = s.
Proof. destruct s as [|c t]; simpl; [reflexivity|]. now intros ->. Qed.

Lemma stripEdges_id p s :
  startsWith p s = false -> endsWith p s = false -> stripEdges p s = s.
Proof.
  intros H1 H2. unfold stripEdges.
  rewrite (dropFirstIf_id _ _ H1), (dropFirstIf_id _ _ H2). apply rev_involutive.
Qed.

Lemma stripEdges_shape p s :
  hasDouble p s = false ->
  hasDouble p (stripEdges p s) = false
  /\ startsWith p (stripEdges p s) = false
  /\ endsWith p (stripEdges p s) = false.
Proof.
  intro D. unfold stripEdges.
  destruct (dropFirstIf_shape p s D) as [D1 S1].
  set (s1 := dropFirstIf p s) in *.
  assert (D2 : hasDouble p (rev s1) = false) by now rewrite hasDouble_rev.
  assert (E2 : endsWith p (rev s1) = false) by now rewrite endsWith_rev.
  destruct (dropFirstIf_shape p (rev s1) D2) as [D3 S3].
  pose proof (dropFirstIf_ends p (rev s1) E2) as E3.
  set (s2 := dropFirstIf p (rev s1)) in *.
  rewrite hasDouble_rev, endsWith_rev. unfold endsWith in E3. auto.
Qed.

Lemma stripEdges_all q p s : allOf q s -> allOf q (stripEdges p s).
Proof.
  intro A. unfold stripEdges.
  apply allOf_rev, dropFirstIf_all, allOf_rev, dropFirstIf_all, A.
Qed.

(** ** The slug generator *)

(** The shape of a generated slug: only [a-z0-9-], no two dashes side by
    side, no dash at either end. *)
Lemma slugify_shape value :
  allOf slugChar (slugify value)
  /\ hasDouble isDash (slugify value) = false
  /\ startsWith isDash (slugify value) = false
  /\ endsWith isDash (slugify value) = false.
Proof.
  unfold slugify.
  set (s1 := removeAll _ _).
  assert (A1 : allOf slugKeep s1) by apply removeAll_all.
  set (s2 := replaceRuns isWhiteSpace (lit "-") s1).
  assert (A2 : allOf slugChar s2).
  { apply replaceRuns_all.
    - repeat constructor.
    - eapply Forall_impl; [|exact A1]. intros c K W.
      destruct (slugKeep_cases _ K); congruence. }
  set (s3 := replaceRuns isDash (lit "-") s2).
  assert (A3 : allOf slugChar s3).
  { apply replaceRuns_all.
    - repeat constructor.
    - eapply Forall_impl; [|exact A2]. auto. }
  assert (D3 : hasDouble isDash s3 = false) by apply collapse_shape.
  split; [now apply stripEdges_all|now apply stripEdges_shape].
Qed.

(** A string of that shape is left as it is. *)
Lemma slugify_fixed s :
  allOf slugChar s -> hasDouble isDash s = false ->
  startsWith isDash s = false -> endsWith isDash s = false ->
  slugify s = s.
Proof.
  intros A D S E. unfold slugify.
  rewrite (toLowerCase_id _ _ A slugChar_lower).
  rewrite trim_id.
  - rewrite removeAll_id by (eapply Forall_impl; [apply slugChar_keep|exact A]).
    unfold replaceRuns.
    rewrite (replaceRuns_none false isWhiteSpace)
      by (eapply Forall_impl; [apply slugChar_not_space|exact A]).
    rewrite collapse_id by (auto; discriminate).
    now apply stripEdges_id.
  - exact (allOf_startsWith _ _ _ A slugChar_not_space).
  - exact (allOf_startsWith _ _ _ (allOf_rev _ _ A) slugChar_not_space).
Qed.

Lemma dropWhile_all q p s : allOf q s -> allOf q (dropWhile p s).
Proof.
  intro A. induction A as [|c t Q A IH]; simpl; [constructor|].
  destruct (p c); [exact IH|now constructor].
Qed.

Lemma trim_all q s : allOf q s -> allOf q (trim s).
Proof.
  intro A. unfold trim, trimEnd, trimStart.
  apply allOf_rev, dropWhile_all, allOf_rev, dropWhile_all, A.
Qed.

Lemma removeAll_sub q p s : allOf q s -> allOf q (removeAll p s).
Proof.
  intro A. unfold removeAll, allOf in *. rewrite Forall_forall in *.
  intros c H. apply filter_In in H as [H _]. auto.
Qed.

(** A string that holds no letter or digit once lowercased gives the empty
    slug. *)
Lemma slugify_without_alnum value :
  Forall (fun c => isAlnum c = false) (toLowerCase value) -> slugify value = [].
Proof.
  intro H.
  pose (q := fun c => negb (isAlnum c)).
  assert (Q : allOf q (slugify value)).
  { unfold slugify. apply stripEdges_all.
    apply replaceRuns_all; [repeat constructor|]. apply Forall_impl with (P := fun c => q c = true); [auto|].
    apply replaceRuns_all; [repeat constructor|]. apply Forall_impl with (P := fun c => q c = true); [auto|].
    apply removeAll_sub, trim_all. unfold allOf.
    eapply Forall_impl; [|exact H].
    intros c N. unfold q. now rewrite N. }
  destruct (slugify_shape value) as (A & _ & S & _).
  destruct (slugify value) as [|c t]; [reflexivity|].
  simpl in S. inversion Q as [|c' t' Qc _]. inversion A as [|c'' t'' Ac _]. subst.
  unfold q in Qc. apply negb_true_iff in Qc.
  rewrite (not_alnum_slugChar _ Qc Ac) in S. discriminate.
Qed.


(** *** Words and gaps *)













(** C10.  [slugify] is idempotent, on a string of the pattern of a slug as on
    any other: a second pass changes nothing.  A string of [a-z0-9-] without
    two dashes side by side and without a dash at either end is left as it
    is by the first pass already. *)
Theorem slugify_idempotent :
  (forall x, slugify (slugify x) = slugify x)
  /\ (forall x, test slugPattern x = true -> slugify (slugify x) = slugify x)
  /\ (forall x,
        allOf slugChar x -> hasDouble isDash x = false ->
        startsWith isDash x = false -> endsWith isDash x = false ->
        slugify x = x).
Proof.
  assert (I : forall x, slugify (slugify x) = slugify x).
  { intro x. destruct (slugify_shape x) as (A & D & S & E). now apply slugify_fixed. }
  split; [exact I|]. split; [intros x _; apply I|apply slugify_fixed].
Qed.

(** ** The languages of the patterns *)

Module PatternFacts.
Import RegexFacts.

Lemma within_class p q :
  (forall c, p c = true -> q c = true) -> within (Class p) (Class q).
Proof.
  intros H s M. apply class_inv in M as (c & -> & P). constructor. auto.
Qed.

Lemma within_seq r1 r2 r1' r2' :
  within r1 r1' -> within r2 r2' -> within (Seq r1 r2) (Seq r1' r2').
Proof.
  intros H1 H2 s M. apply seq_inv in M as (s1 & s2 & -> & M1 & M2).
  constructor; auto.
Qed.

Lemma within_star r r' : within r r' -> within (Star r) (Star r').
Proof.
  intros H s M. remember (Star r) as q eqn:Hq. revert Hq.
  induction M as [|p0 c0 P0|q1 q2 s1 s2 M1 _ M2 _|q1 q2 s0 M _|q1 q2 s0 M _
                 |q0|q0 s1 s2 M1 _ M2 IH2];
    intro Hq; try discriminate.
  - constructor.
  - injection Hq as ->. constructor; auto.
Qed.

Lemma within_plus r r' : within r r' -> within (Plus r) (Plus r').
Proof. intro H. apply within_seq; [exact H|now apply within_star]. Qed.

Lemma plus_within_star r : within (Plus r) (Star r).
Proof.
  intros s M. apply seq_inv in M as (s1 & s2 & -> & M1 & M2). now constructor.
Qed.

Lemma within_trans r1 r2 r3 : within r1 r2 -> within r2 r3 -> within r1 r3.
Proof. intros H1 H2 s M. auto. Qed.

Lemma within_refl r : within r r.
Proof. intros s M. exact M. Qed.

(** [C*] and [C+] for a class [C] *)
Lemma star_class p s : matches (Star (Class p)) s <-> allOf p s.
Proof.
  split.
  - induction s as [|c t IH]; intro M; [constructor|].
    destruct (star_cons _ _ M _ _ eq_refl) as (t1 & t2 & -> & M1 & M2).
    apply class_inv in M1 as (c' & E & P). injection E as Ec Et. subst.
    simpl in *. constructor; [exact P|exact (IH M2)].
  - intro A. induction A as [|c t P _ IH]; [constructor|].
    apply (MStarApp (Class p) [c] t); [now constructor|exact IH].
Qed.

Lemma plus_class p s : matches (Plus (Class p)) s <-> s <> [] /\ allOf p s.
Proof.
  split.
  - intro M. apply seq_inv in M as (s1 & s2 & -> & M1 & M2).
    apply class_inv in M1 as (c & -> & P). apply star_class in M2.
    split; [discriminate|now constructor].
  - intros [N A]. destruct A as [|c t P A]; [congruence|].
    apply (MSeq (Class p) (Star (Class p)) [c] t); [now constructor|now apply star_class].
Qed.

Lemma emailLocalChar_plain c : emailLocalChar c = true -> notSpaceNorAt c = true.
Proof. by_code_unit c. Qed.

Lemma emailDomainChar_plain c : emailDomainChar c = true -> notSpaceNorAt c = true.
Proof. by_code_unit c. Qed.

Lemma isLetter_plain c : isLetter c = true -> notSpaceNorAt c = true.
Proof. by_code_unit c. Qed.

(** What the pattern of the schema accepts, the pattern of the hook accepts. *)
Lemma schemaEmail_within : within schemaEmailRegex emailRegex.
Proof.
  unfold schemaEmailRegex, emailRegex.
  apply within_seq; [apply within_plus, within_class, emailLocalChar_plain|].
  apply within_seq; [apply within_refl|].
  apply within_seq; [apply within_plus, within_class, emailDomainChar_plain|].
  apply within_seq; [apply within_refl|].
  apply within_seq; [apply within_class, isLetter_plain|].
  eapply within_trans; [apply plus_within_star|].
  apply within_star, within_class, isLetter_plain.
Qed.

Lemma schemaEmail_simple s :
  test schemaEmailRegex s = true -> test emailRegex s = true.
Proof. rewrite !test_spec. apply schemaEmail_within. Qed.

Lemma slugPattern_spec s : test slugPattern s = true <-> s <> [] /\ allOf slugChar s.
Proof. rewrite test_spec. apply plus_class. Qed.

(** The strings of [timePattern]: two digits of an hour below 24, a colon,
    two digits of a minute below 60. *)
Lemma timePattern_spec s :
  test timePattern s = true <->
  exists h1 h2 m1 m2,
    s = [h1; h2; ":"%char; m1; m2]
    /\ (oneOf "01" h1 = true /\ isDigit h2 = true
        \/ h1 = "2"%char /\ inRange "0" "3" h2 = true)
    /\ inRange "0" "5" m1 = true /\ isDigit m2 = true.
Proof.
  rewrite test_spec. unfold timePattern. split.
  - intro M.
    apply seq_inv in M as (hh & rest & -> & H & M).
    apply seq_inv in M as (co & rest' & -> & C & M).
    apply seq_inv in M as (a & b & -> & M1 & M2).
    apply class_inv in C as (c & -> & C).
    apply class_inv in M1 as (m1 & -> & P1).
    apply class_inv in M2 as (m2 & -> & P2).
    apply Ascii.eqb_eq in C. subst c.
    apply alt_inv in H as [H|H];
      apply seq_inv in H as (a & b & -> & H1 & H2);
      apply class_inv in H1 as (h1 & -> & Q1);
      apply class_inv in H2 as (h2 & -> & Q2);
      exists h1, h2, m1, m2; simpl; (split; [reflexivity|]); (split; [|now split]).
    + left. now split.
    + right. split; [|exact Q2]. apply Ascii.eqb_eq in Q1. auto.
  - intros (h1 & h2 & m1 & m2 & -> & H & P1 & P2).
    apply (MSeq _ _ [h1; h2] [":"%char; m1; m2]).
    + destruct H as [[Q1 Q2]|[-> Q2]].
      * apply MAltL. apply (MSeq _ _ [h1] [h2]); now constructor.
      * apply MAltR. apply (MSeq _ _ ["2"%char] [h2]); now constructor.
    + apply (MSeq _ _ [":"%char] [m1; m2]); [now constructor|].
      apply (MSeq _ _ [m1] [m2]); now constructor.
Qed.

End PatternFacts.

(** ** The Event hook *)

Lemma blank_Some s : blank (Some s) = true <-> trim s = [].
Proof.
  simpl. rewrite Nat.eqb_eq. split; [apply length_zero_iff_nil|now intros ->].
Qed.

Lemma blank_trim v : blank (option_map trim v) = blank v.
Proof. destruct v as [s|]; simpl; [now rewrite trim_idem|reflexivity]. Qed.

Lemma blank_get_step f g e :
  blank (get g (set f (option_map trim (get f e)) e)) = blank (get g e).
Proof. destruct e, f, g; simpl; try reflexivity; apply blank_trim. Qed.

Lemma forallb_same {A : Type} (f g : A -> bool) (l : list A) :
  (forall x, f x = g x) -> forallb f l = forallb g l.
Proof. intro H. induction l as [|x l IH]; simpl; [reflexivity|]. now rewrite H, IH. Qed.

Lemma requireStrings_spec fields :
  forall e,
    match requireStrings fields e with
    | inr e' =>
        forallb (fun f => negb (blank (get f e))) fields = true
        /\ e' = fold_left (fun e f => set f (option_map trim (get f e)) e) fields e
    | inl x =>
        forallb (fun f => negb (blank (get f e))) fields = false
        /\ exists f, In f fields /\ blank (get f e) = true /\ x = FieldRequired f
    end.
Proof.
  induction fields as [|f rest IH]; intro e; simpl; [auto|].
  destruct (blank (get f e)) eqn:B; simpl.
  - split; [reflexivity|]. exists f. auto.
  - specialize (IH (set f (option_map trim (get f e)) e)).
    assert (E : forallb (fun g => negb (blank (get g (set f (option_map trim (get f e)) e)))) rest
                = forallb (fun g => negb (blank (get g e))) rest).
    { apply forallb_same. intro g. now rewrite blank_get_step. }
    rewrite E in IH.
    destruct (requireStrings rest _) as [x|e'].
    + destruct IH as (F & g & I & Bg & ->). split; [exact F|].
      exists g. rewrite blank_get_step in Bg. auto.
    + exact IH.
Qed.

Lemma requireStrings_present e :
  stringsPresent e = true ->
  requireStrings requiredStringFields e = inr (trimStrings e).
Proof.
  intro H. pose proof (requireStrings_spec requiredStringFields e) as S.
  unfold stringsPresent in H.
  destruct (requireStrings requiredStringFields e) as [x|e'].
  - destruct S as [F _]. congruence.
  - destruct S as [_ ->]. reflexivity.
Qed.

Lemma requireStrings_absent e :
  stringsPresent e = false ->
  exists f, blank (get f e) = true
            /\ requireStrings requiredStringFields e = inl (FieldRequired f).
Proof.
  intro H. pose proof (requireStrings_spec requiredStringFields e) as S.
  unfold stringsPresent in H.
  destruct (requireStrings requiredStringFields e) as [x|e'].
  - destruct S as (_ & f & _ & B & ->). eauto.
  - destruct S as [F _]. congruence.
Qed.

Lemma stringsPresent_get e f : stringsPresent e = true -> blank (get f e) = false.
Proof.
  intro H. unfold stringsPresent in H. rewrite forallb_forall in H.
  apply negb_true_iff, H. destruct f; simpl; tauto.
Qed.

Lemma get_present e f :
  blank (get f e) = false -> exists s, get f e = Some s /\ trim s <> [].
Proof.
  destruct (get f e) as [s|] eqn:E; [|discriminate]. intro B.
  exists s. split; [reflexivity|]. intro T. apply blank_Some in T. congruence.
Qed.

(** [ensureNonEmptyStringArray] accepts the non-empty collections of
    non-empty strings, and only them. *)
Lemma ensureNonEmptyStringArray_spec l f :
  ensureNonEmptyStringArray l f = inr tt <-> nonEmptyStrings l.
Proof.
  unfold ensureNonEmptyStringArray, nonEmptyStrings. split.
  - destruct l as [l|]; [|discriminate].
    destruct l as [|x t]; [discriminate|]. simpl Nat.eqb. rewrite orb_false_l.
    destruct (existsb blank (x :: t)) eqn:E; [discriminate|]. intros _.
    assert (G : forall l, existsb blank l = false ->
              exists items, l = map Some items /\ Forall (fun s => trim s <> []) items).
    { induction l as [|y l IH]; intro H.
      - exists []. split; [reflexivity|constructor].
      - simpl in H. apply orb_false_iff in H as [B H].
        destruct (IH H) as (items & -> & A).
        destruct y as [s|]; [|discriminate].
        exists (s :: items). split; [reflexivity|].
        constructor; [|exact A]. intro T. apply blank_Some in T. congruence. }
    destruct (G _ E) as (items & Eq & A). exists items.
    split; [now rewrite Eq|]. split; [|exact A].
    destruct items; [discriminate|discriminate].
  - intros (items & -> & N & A).
    destruct items as [|s items]; [congruence|]. simpl Nat.eqb. rewrite orb_false_l.
    assert (G : existsb blank (map Some (s :: items)) = false).
    { clear N. induction A as [|y l T _ IH]; [reflexivity|].
      simpl map.
      change (existsb blank (Some y :: map Some l))
        with (blank (Some y) || existsb blank (map Some l)).
      rewrite IH, orb_false_r.
      destruct (blank (Some y)) eqn:B; [|reflexivity]. apply blank_Some in B. congruence. }
    now rewrite G.
Qed.

Lemma ensureNonEmptyStringArray_fail l f x :
  ensureNonEmptyStringArray l f = inl x -> x = NotStringArray f /\ ~ nonEmptyStrings l.
Proof.
  intro H. split.
  - unfold ensureNonEmptyStringArray in H. destruct l as [l|]; [|now injection H].
    destruct (_ || _); [now injection H|discriminate].
  - intro N. apply (ensureNonEmptyStringArray_spec l f) in N. congruence.
Qed.

Lemma ensureNonEmptyStringArray_cases l f :
  ensureNonEmptyStringArray l f = inr tt
  \/ ensureNonEmptyStringArray l f = inl (NotStringArray f).
Proof.
  unfold ensureNonEmptyStringArray. destruct l as [l|]; [|now right].
  destruct (_ || _); [now right|now left].
Qed.

Lemma empty_not_nonEmptyStrings : ~ nonEmptyStrings (Some []).
Proof.
  intros (items & E & N & _). destruct items; [congruence|discriminate].
Qed.

Lemma trimStrings_fields e :
  get Title (trimStrings e) = option_map trim (title e)
  /\ date (trimStrings e) = option_map trim (date e)
  /\ time (trimStrings e) = option_map trim (time e)
  /\ agenda (trimStrings e) = agenda e
  /\ tags (trimStrings e) = tags e
  /\ slug (trimStrings e) = slug e.
Proof. destruct e. repeat split. Qed.

Section EventFacts.

Variable Date_parse : str -> option Z.

(** What is left of the hook once the loop over the required strings is
    through. *)
Lemma preSave_present m e :
  stringsPresent e = true ->
  exists ti da tm,
    title e = Some ti /\ date e = Some da /\ time e = Some tm /\
    preSave Date_parse m e =
      (_ <- ensureNonEmptyStringArray (agenda e) Agenda ;;
       _ <- ensureNonEmptyStringArray (tags e) Tags ;;
       match Date_parse (trim da) with
       | None => throw InvalidDate
       | Some parsedDate =>
           if negb (test timePattern (trim tm)) then throw InvalidTime
           else ret (saved m ti tm parsedDate e)
       end).
Proof.
  intro P.
  destruct (get_present e Title (stringsPresent_get e Title P)) as (ti & Eti & _).
  destruct (get_present e Date (stringsPresent_get e Date P)) as (da & Eda & _).
  destruct (get_present e Time (stringsPresent_get e Time P)) as (tm & Etm & _).
  simpl in Eti, Eda, Etm. exists ti, da, tm. repeat (split; [assumption|]).
  unfold preSave. rewrite (requireStrings_present e P).
  unfold bind at 1. cbv beta iota.
  destruct (trimStrings_fields e) as (_ & _ & _ & -> & -> & _).
  destruct (ensureNonEmptyStringArray (agenda e) Agenda) as [x|[]]; [reflexivity|].
  destruct (ensureNonEmptyStringArray (tags e) Tags) as [x|[]]; [reflexivity|].
  unfold bind. destruct e; simpl in *. subst.
  unfold newDate, saved. simpl. destruct (Date_parse (trim da)); [|reflexivity].
  rewrite trim_idem. destruct (test timePattern (trim tm)); [|reflexivity].
  simpl. now destruct (m || falsy _).
Qed.

Lemma preSave_absent m e :
  stringsPresent e = false ->
  exists f, blank (get f e) = true /\ preSave Date_parse m e = inl (FieldRequired f).
Proof.
  intro P. destruct (requireStrings_absent e P) as (f & B & R).
  exists f. split; [exact B|]. unfold preSave. now rewrite R.
Qed.

(** Every failure of the hook is an error of validation. *)
Lemma preSave_failure m e x : preSave Date_parse m e = inl x -> kindOf x = ValidationError.
Proof.
  destruct (stringsPresent e) eqn:P.
  - destruct (preSave_present m e P) as (ti & da & tm & _ & _ & _ & ->).
    destruct (ensureNonEmptyStringArray_cases (agenda e) Agenda) as [->| ->];
      [|intro H; injection H as <-; reflexivity].
    destruct (ensureNonEmptyStringArray_cases (tags e) Tags) as [->| ->];
      [|intro H; injection H as <-; reflexivity].
    simpl. destruct (Date_parse (trim da)); [|intro H; injection H as <-; reflexivity].
    destruct (test timePattern (trim tm)); simpl;
      [|intro H; injection H as <-; reflexivity].
    discriminate.
  - destruct (preSave_absent m e P) as (f & _ & ->).
    intro H; injection H as <-; reflexivity.
Qed.


(** The hook succeeds exactly when every check passes. *)
Lemma preSave_ok m e e' :
  preSave Date_parse m e = inr e' <->
  stringsPresent e = true
  /\ nonEmptyStrings (agenda e) /\ nonEmptyStrings (tags e)
  /\ exists ti da tm d,
       title e = Some ti /\ date e = Some da /\ time e = Some tm
       /\ Date_parse (trim da) = Some d
       /\ test timePattern (trim tm) = true
       /\ e' = saved m ti tm d e.
Proof.
  split.
  - intro H. destruct (stringsPresent e) eqn:P.
    + destruct (preSave_present m e P) as (ti & da & tm & Et & Ed & Etm & E).
      rewrite E in H. clear E.
      destruct (ensureNonEmptyStringArray (agenda e) Agenda) as [x|[]] eqn:A;
        [discriminate|].
      destruct (ensureNonEmptyStringArray (tags e) Tags) as [x|[]] eqn:T;
        [discriminate|].
      apply ensureNonEmptyStringArray_spec in A, T. simpl in H.
      destruct (Date_parse (trim da)) as [d|] eqn:D; [|discriminate].
      destruct (test timePattern (trim tm)) eqn:M; [|discriminate].
      simpl in H. injection H as <-.
      repeat (split; [assumption || reflexivity|]).
      exists ti, da, tm, d. auto 10.
    + destruct (preSave_absent m e P) as (f & _ & E). congruence.
  - intros (P & A & T & ti & da & tm & d & Et & Ed & Etm & D & M & ->).
    destruct (preSave_present m e P) as (ti' & da' & tm' & Et' & Ed' & Etm' & ->).
    apply (ensureNonEmptyStringArray_spec _ Agenda) in A.
    apply (ensureNonEmptyStringArray_spec _ Tags) in T.
    rewrite A, T. simpl.
    assert (ti' = ti) as -> by congruence.
    assert (da' = da) as -> by congruence.
    assert (tm' = tm) as -> by congruence.
    now rewrite D, M.
Qed.

Lemma preSave_fails m e :
  (forall e', preSave Date_parse m e <> inr e') ->
  failsWith ValidationError (preSave Date_parse m e).
Proof.
  intro H. destruct (preSave Date_parse m e) as [x|e'] eqn:E.
  - exists x. split; [reflexivity|]. exact (preSave_failure m e x E).
  - now destruct (H e').
Qed.

(** Where the hook stops. *)
Lemma preSave_stops m e x :
  preSave Date_parse m e = inl x <->
  (exists f, x = FieldRequired f /\ stringsPresent e = false
             /\ requireStrings requiredStringFields e = inl x)
  \/ stringsPresent e = true /\
     (x = NotStringArray Agenda /\ ~ nonEmptyStrings (agenda e)
      \/ nonEmptyStrings (agenda e) /\
         (x = NotStringArray Tags /\ ~ nonEmptyStrings (tags e)
          \/ nonEmptyStrings (tags e) /\
             exists da tm, date e = Some da /\ time e = Some tm /\
               (x = InvalidDate /\ Date_parse (trim da) = None
                \/ x = InvalidTime /\ Date_parse (trim da) <> None
                   /\ test timePattern (trim tm) = false))).
Proof.
  destruct (stringsPresent e) eqn:P.
  - destruct (preSave_present m e P) as (ti & da & tm & Et & Ed & Etm & ->).
    destruct (ensureNonEmptyStringArray (agenda e) Agenda) as [y|[]] eqn:A.
    { apply ensureNonEmptyStringArray_fail in A as [-> A]. simpl. split.
      - intro H. injection H as <-. right. split; [reflexivity|]. left. auto.
      - intros [(f & _ & F & _)|[_ [[-> _]|[N _]]]];
          [discriminate|reflexivity|contradiction]. }
    apply ensureNonEmptyStringArray_spec in A.
    destruct (ensureNonEmptyStringArray (tags e) Tags) as [y|[]] eqn:T.
    { apply ensureNonEmptyStringArray_fail in T as [-> T]. simpl. split.
      - intro H. injection H as <-. right. split; [reflexivity|]. right.
        split; [exact A|]. left. auto.
      - intros [(f & _ & F & _)|[_ [[_ N]|[_ [[-> _]|[N _]]]]]];
          [discriminate|contradiction|reflexivity|contradiction]. }
    apply ensureNonEmptyStringArray_spec in T. simpl.
    destruct (Date_parse (trim da)) as [d|] eqn:D.
    + destruct (test timePattern (trim tm)) eqn:M; simpl; split.
      * discriminate.
      * intros [(f & _ & F & _)|[_ [[_ N]|[_ [[_ N]|[_ (da0 & tm0 & Ed0 & Etm0 & H)]]]]]];
          try discriminate; try contradiction.
        assert (da0 = da) as -> by congruence.
        assert (tm0 = tm) as -> by congruence.
        destruct H as [[_ H]|(_ & _ & H)]; congruence.
      * intro H. injection H as <-. right. split; [reflexivity|]. right.
        split; [exact A|]. right. split; [exact T|]. exists da, tm.
        repeat (split; [assumption|]). right. rewrite D. repeat split; congruence.
      * intros [(f & _ & F & _)|[_ [[_ N]|[_ [[_ N]|[_ (da0 & tm0 & Ed0 & Etm0 & H)]]]]]];
          try discriminate; try contradiction.
        assert (da0 = da) as -> by congruence.
        destruct H as [[_ H]|(-> & _)]; [congruence|reflexivity].
    + split.
      * intro H. injection H as <-. right. split; [reflexivity|]. right.
        split; [exact A|]. right. split; [exact T|]. exists da, tm.
        repeat (split; [assumption|]). left. auto.
      * intros [(f & _ & F & _)|[_ [[_ N]|[_ [[_ N]|[_ (da0 & tm0 & Ed0 & Etm0 & H)]]]]]];
          try discriminate; try contradiction.
        assert (da0 = da) as -> by congruence.
        destruct H as [[-> _]|(_ & H & _)]; [reflexivity|congruence].
  - destruct (preSave_absent m e P) as (f & B & E).
    assert (R : requireStrings requiredStringFields e = inl (FieldRequired f)).
    { destruct (requireStrings_absent e P) as (g & _ & R).
      unfold preSave in E. rewrite R in E. simpl in E. congruence. }
    rewrite E. split.
    + intro H. injection H as <-. left. exists f. auto.
    + intros [(g & -> & _ & G)|[F _]]; [congruence|discriminate].
Qed.


Lemma saved_fields m ti tm d e :
  time (saved m ti tm d e) = Some (trim tm)
  /\ date (saved m ti tm d e) = Some (toISOString d)
  /\ slug (saved m ti tm d e)
     = (if m || falsy (slug e) then Some (slugify (trim ti)) else slug e)
  /\ title (saved m ti tm d e) = option_map trim (title e)
  /\ agenda (saved m ti tm d e) = agenda e
  /\ tags (saved m ti tm d e) = tags e.
Proof.
  unfold saved. destruct e as [ti0 sl de ov im ve lo da tm0 mo au ag og ta].
  cbn [slug]. destruct (m || falsy sl); repeat split.
Qed.

Lemma applySetters_fields a :
  time (applySetters a) = time a
  /\ date (applySetters a) = date a
  /\ agenda (applySetters a) = agenda a
  /\ tags (applySetters a) = tags a
  /\ slug (applySetters a) = slug a
  /\ title (applySetters a) = option_map trim (title a).
Proof. destruct a. repeat split. Qed.

Lemma validate_cases e :
  validate e = inr e \/ exists failing, validate e = inl (SchemaValidation failing).
Proof.
  unfold validate. destruct (filter _ eventPaths) as [|p ps]; [now left|right; eauto].
Qed.

Lemma insert_cases env events e :
  insert env events e =
    if answers env
    then if existsb (hasSlug (slug e)) events then inl DuplicateKey
         else inr (events ++ [(freshId events, e)], (freshId events, e))
    else inl QueryFailed.
Proof.
  unfold insert, roundTrip. destruct (answers env); simpl; [|reflexivity].
  now destruct (existsb _ events).
Qed.

(** A creation succeeds exactly when the validators of the schema, the hook
    and the insert under the unique index all do. *)
Lemma Event_create_ok env events a events' d :
  Event_create Date_parse env events a = inr (events', d) <->
  validate (applySetters a) = inr (applySetters a)
  /\ answers env = true
  /\ exists doc,
       preSave Date_parse true (applySetters a) = inr doc
       /\ existsb (hasSlug (slug doc)) events = false
       /\ d = (freshId events, doc)
       /\ events' = events ++ [d].
Proof.
  unfold Event_create.
  destruct (validate_cases (applySetters a)) as [V|(ps & V)]; rewrite V; simpl.
  - destruct (preSave Date_parse true (applySetters a)) as [x|doc] eqn:S; simpl.
    + split; [discriminate|]. intros (_ & _ & doc & D & _). discriminate.
    + rewrite insert_cases. destruct (answers env).
      * destruct (existsb (hasSlug (slug doc)) events) eqn:X; split.
        -- discriminate.
        -- intros (_ & _ & doc' & D & X' & _). congruence.
        -- intro H. injection H as <- <-. repeat split. exists doc. auto.
        -- intros (_ & _ & doc' & D & _ & Ed & Ee). injection D as <-.
           subst. reflexivity.
      * split; [discriminate|]. intros (_ & F & _). discriminate.
  - split; [discriminate|]. intros (F & _). discriminate.
Qed.

(** When the hook rejects the document, the creation fails with an error
    of validation. *)
Lemma Event_create_rejected env events a :
  (forall doc, preSave Date_parse true (applySetters a) <> inr doc) ->
  failsWith ValidationError (Event_create Date_parse env events a).
Proof.
  intro H. unfold Event_create.
  destruct (validate_cases (applySetters a)) as [V|(ps & V)]; rewrite V; simpl.
  - destruct (preSave_fails true (applySetters a) H) as (x & -> & K).
    exists x. auto.
  - exists (SchemaValidation ps). auto.
Qed.

(** The creation throws an error of the hook exactly when the validators of
    the schema pass and the hook throws it. *)
Lemma Event_create_hook_error env events a x :
  kindOf x = ValidationError -> (forall failing, x <> SchemaValidation failing) ->
  (Event_create Date_parse env events a = inl x <->
   validate (applySetters a) = inr (applySetters a)
   /\ preSave Date_parse true (applySetters a) = inl x).
Proof.
  intros K N. unfold Event_create.
  destruct (validate_cases (applySetters a)) as [V|(ps & V)]; rewrite V; simpl.
  - destruct (preSave Date_parse true (applySetters a)) as [y|doc] eqn:S; simpl.
    + split; [intro H; split; [reflexivity|congruence]|]. intros [_ H]. congruence.
    + rewrite insert_cases. split; [|intros [_ H]; discriminate].
      destruct (answers env); [destruct (existsb (hasSlug (slug doc)) events)|];
        intro H; try discriminate; injection H as <-; discriminate.
  - split; [|intros [H _]; discriminate].
    intro H. injection H as <-. now destruct (N ps).
Qed.

Lemma stringsPresent_set_time e t :
  stringsPresent e = true -> blank (Some t) = false ->
  stringsPresent (set Time (Some t) e) = true.
Proof.
  unfold stringsPresent. destruct e. cbn -[blank].
  rewrite !andb_true_iff. intros H B. rewrite B. tauto.
Qed.

Lemma set_time_fields e v :
  title (set Time v e) = title e /\ date (set Time v e) = date e
  /\ time (set Time v e) = v /\ agenda (set Time v e) = agenda e
  /\ tags (set Time v e) = tags e.
Proof. destruct e. repeat split. Qed.

(** C6.  On every save of an Event the trimmed [time] is tested against
    [^([01]\d|2[0-3]):([0-5]\d)$].  A time that does not match makes the hook,
    and the creation, fail with an error of validation; the hook stops with
    the error of the time check exactly when the checks before it pass and
    the time does not match; on success the trimmed time is stored as it
    is.  A document that saves no longer does with the time 9:30, and still
    does with 09:30.  The strings of the pattern are the five code units of
    an hour from 00 to 23, a colon and a minute from 00 to 59. *)
Theorem time_validation (m : bool) (env : Env) (events : Events) (e : EventAttrs) :
  (forall t, time e = Some t -> test timePattern (trim t) = false ->
     failsWith ValidationError (preSave Date_parse m e)
     /\ failsWith ValidationError (Event_create Date_parse env events e))
  /\ (preSave Date_parse m e = inl InvalidTime <->
        stringsPresent e = true
        /\ nonEmptyStrings (agenda e) /\ nonEmptyStrings (tags e)
        /\ (exists da, date e = Some da /\ Date_parse (trim da) <> None)
        /\ exists t, time e = Some t /\ test timePattern (trim t) = false)
  /\ (Event_create Date_parse env events e = inl InvalidTime <->
        validate (applySetters e) = inr (applySetters e)
        /\ preSave Date_parse true (applySetters e) = inl InvalidTime)
  /\ (forall e', preSave Date_parse m e = inr e' ->
        exists t, time e = Some t /\ test timePattern (trim t) = true
                  /\ time e' = Some (trim t))
  /\ (forall events' id e',
        Event_create Date_parse env events e = inr (events', (id, e')) ->
        exists t, time e = Some t /\ test timePattern (trim t) = true
                  /\ time e' = Some (trim t))
  /\ (forall e', preSave Date_parse m e = inr e' ->
        preSave Date_parse m (set Time (Some (lit "9:30")) e) = inl InvalidTime
        /\ exists e'', preSave Date_parse m (set Time (Some (lit "09:30")) e) = inr e''
                       /\ time e'' = Some (lit "09:30"))
  /\ test timePattern (lit "9:30") = false
  /\ test timePattern (lit "09:30") = true
  /\ (forall s,
        test timePattern s = true <->
        exists h1 h2 m1 m2,
          s = [h1; h2; ":"%char; m1; m2]
          /\ (oneOf "01" h1 = true /\ isDigit h2 = true
              \/ h1 = "2"%char /\ inRange "0" "3" h2 = true)
          /\ inRange "0" "5" m1 = true /\ isDigit m2 = true).
Proof.
  assert (OK : forall m0 e0 e', preSave Date_parse m0 e0 = inr e' ->
            exists t, time e0 = Some t /\ test timePattern (trim t) = true
                      /\ time e' = Some (trim t)).
  { intros m0 e0 e' H.
    apply preSave_ok in H as (_ & _ & _ & ti & da & tm & d & _ & _ & Etm & _ & M & ->).
    exists tm. repeat split; [exact Etm|exact M|apply saved_fields]. }
  assert (NO : forall m0 e0 t, time e0 = Some t -> test timePattern (trim t) = false ->
            forall e', preSave Date_parse m0 e0 <> inr e').
  { intros m0 e0 t Et M e' H. destruct (OK _ _ _ H) as (t' & Et' & M' & _). congruence. }
  split; [|split; [|split; [|split; [|split; [|split; [|split; [|split]]]]]]].
  - intros t Et M. split.
    + apply preSave_fails. exact (NO m e t Et M).
    + apply Event_create_rejected. apply (NO true (applySetters e) t); [|exact M].
      destruct (applySetters_fields e) as (-> & _). exact Et.
  - rewrite preSave_stops. split.
    + intros [(f & F & _)|(P & [[F _]|(A & [[F _]|(T & da & tm & Ed & Etm & [[F _]|(_ & D & M)])])])];
        try discriminate.
      repeat (split; [assumption|]). split; eauto.
    + intros (P & A & T & (da & Ed & D) & (t & Et & M)).
      right. split; [exact P|]. right. split; [exact A|]. right. split; [exact T|].
      exists da, t. repeat (split; [assumption|]). right. auto.
  - apply Event_create_hook_error; [reflexivity|discriminate].
  - apply OK.
  - intros events' id e' H.
    apply Event_create_ok in H as (_ & _ & doc & S & _ & D & _).
    injection D as _ <-. destruct (OK _ _ _ S) as (t & Et & M & Et').
    destruct (applySetters_fields e) as (Ea & _). rewrite Ea in Et. eauto.
  - intros e' H.
    apply preSave_ok in H as (P & A & T & ti & da & tm & d & Eti & Eda & Etm & D & M & _).
    destruct (set_time_fields e (Some (lit "9:30"))) as (T1 & T2 & T3 & T4 & T5).
    destruct (set_time_fields e (Some (lit "09:30"))) as (U1 & U2 & U3 & U4 & U5).
    split.
    + apply preSave_stops. right.
      split; [now apply stringsPresent_set_time|].
      right. rewrite T4. split; [exact A|]. right. rewrite T5. split; [exact T|].
      exists da, (lit "9:30"). rewrite T2, T3.
      repeat (split; [assumption || reflexivity|]). right.
      repeat split. congruence.
    + exists (saved m ti (lit "09:30") d (set Time (Some (lit "09:30")) e)). split.
      * apply preSave_ok. split; [now apply stringsPresent_set_time|].
        rewrite U4, U5, U1, U2, U3. repeat (split; [assumption|]).
        exists ti, da, (lit "09:30"), d. auto 10.
      * apply saved_fields.
  - reflexivity.
  - reflexivity.
  - apply PatternFacts.timePattern_spec.
Qed.



Lemma not_nonEmptyStrings l f :
  ~ nonEmptyStrings l <-> ensureNonEmptyStringArray l f = inl (NotStringArray f).
Proof.
  split.
  - intro N. destruct (ensureNonEmptyStringArray_cases l f) as [H|H]; [|exact H].
    apply ensureNonEmptyStringArray_spec in H. contradiction.
  - intro H. now apply ensureNonEmptyStringArray_fail in H.
Qed.

Lemma not_nonEmptyStrings_items l :
  ~ nonEmptyStrings (Some l) <->
  l = [] \/ In None l \/ exists s, In (Some s) l /\ trim s = [].
Proof.
  rewrite (not_nonEmptyStrings _ Agenda). unfold ensureNonEmptyStringArray.
  destruct l as [|x t].
  - simpl. split; [now left|reflexivity].
  - simpl Nat.eqb. rewrite orb_false_l.
    destruct (existsb blank (x :: t)) eqn:E.
    + split; [intros _|reflexivity].
      apply existsb_exists in E as ([s|] & I & B); right.
      * right. exists s. split; [exact I|now apply blank_Some].
      * now left.
    + split; [discriminate|]. intro H. exfalso.
      assert (X : existsb blank (x :: t) = true); [|congruence].
      apply existsb_exists. destruct H as [H|[H|(s & I & T)]].
      * discriminate.
      * exists None. auto.
      * exists (Some s). split; [exact I|now apply blank_Some].
Qed.

(** C8.  On every save of an Event, [agenda] and [tags] must each be a
    non-empty collection of non-empty strings: [ensureNonEmptyStringArray]
    accepts these and throws on every other value, which is a value that is
    not an array, an empty array, or an array with an item that is not a
    string or is empty once trimmed.  A document whose agenda or tags is not
    such a collection makes the hook, and the creation, fail with an error
    of validation; the hook stops with the error of a list exactly when the
    checks before it pass and the list is not such a collection.  In
    particular an empty agenda fails. *)
Theorem lists_validation (m : bool) (env : Env) (events : Events) (e : EventAttrs) :
  (forall l f, ensureNonEmptyStringArray l f = inr tt <-> nonEmptyStrings l)
  /\ (forall l f, ensureNonEmptyStringArray l f = inl (NotStringArray f)
                  <-> ~ nonEmptyStrings l)
  /\ (forall l, ~ nonEmptyStrings l <->
        l = None \/ l = Some []
        \/ exists items, l = Some items /\
             (In None items \/ exists s, In (Some s) items /\ trim s = []))
  /\ (~ nonEmptyStrings (agenda e) \/ ~ nonEmptyStrings (tags e) ->
        failsWith ValidationError (preSave Date_parse m e)
        /\ failsWith ValidationError (Event_create Date_parse env events e))
  /\ (preSave Date_parse m e = inl (NotStringArray Agenda) <->
        stringsPresent e = true /\ ~ nonEmptyStrings (agenda e))
  /\ (preSave Date_parse m e = inl (NotStringArray Tags) <->
        stringsPresent e = true /\ nonEmptyStrings (agenda e)
        /\ ~ nonEmptyStrings (tags e))
  /\ (forall f,
        Event_create Date_parse env events e = inl (NotStringArray f) <->
        validate (applySetters e) = inr (applySetters e)
        /\ preSave Date_parse true (applySetters e) = inl (NotStringArray f))
  /\ (forall e', preSave Date_parse m e = inr e' ->
        nonEmptyStrings (agenda e) /\ nonEmptyStrings (tags e))
  /\ (forall events' d, Event_create Date_parse env events e = inr (events', d) ->
        nonEmptyStrings (agenda e) /\ nonEmptyStrings (tags e))
  /\ (agenda e = Some [] ->
        failsWith ValidationError (preSave Date_parse m e)
        /\ failsWith ValidationError (Event_create Date_parse env events e)).
Proof.
  assert (OK : forall m0 e0 e', preSave Date_parse m0 e0 = inr e' ->
            nonEmptyStrings (agenda e0) /\ nonEmptyStrings (tags e0)).
  { intros m0 e0 e' H. apply preSave_ok in H as (_ & A & T & _). auto. }
  assert (NO : ~ nonEmptyStrings (agenda e) \/ ~ nonEmptyStrings (tags e) ->
            failsWith ValidationError (preSave Date_parse m e)
            /\ failsWith ValidationError (Event_create Date_parse env events e)).
  { intro N. split.
    - apply preSave_fails. intros e' H. destruct (OK _ _ _ H). tauto.
    - apply Event_create_rejected. intros e' H. destruct (OK _ _ _ H) as [A T].
      destruct (applySetters_fields e) as (_ & _ & Ea & Et & _).
      rewrite Ea in A. rewrite Et in T. tauto. }
  split; [|split; [|split; [|split; [|split; [|split; [|split; [|split; [|split]]]]]]]].
  - apply ensureNonEmptyStringArray_spec.
  - intros l f. symmetry. apply not_nonEmptyStrings.
  - intro l. destruct l as [l|].
    + rewrite not_nonEmptyStrings_items. split.
      * intros [->|H]; [auto|]. right. right. exists l. auto.
      * intros [H|[H|(items & H & I)]]; [discriminate|injection H as ->; auto|].
        injection H as ->. auto.
    + split; [auto|]. intros _ (items & H & _). discriminate.
  - exact NO.
  - rewrite preSave_stops. split.
    + intros [(f & F & _)|(P & [[_ A]|(A & [[F _]|(T & da & tm & _ & _ & [[F _]|(F & _)])])])];
        try discriminate. auto.
    + intros [P A]. right. split; [exact P|]. left. auto.
  - rewrite preSave_stops. split.
    + intros [(f & F & _)|(P & [[F _]|(A & [[_ T]|(T & da & tm & _ & _ & [[F _]|(F & _)])])])];
        try discriminate. auto.
    + intros (P & A & T). right. split; [exact P|]. right. split; [exact A|]. left. auto.
  - intro f. apply Event_create_hook_error; [reflexivity|discriminate].
  - apply OK.
  - intros events' d H. apply Event_create_ok in H as (_ & _ & doc & S & _).
    destruct (OK _ _ _ S) as [A T].
    destruct (applySetters_fields e) as (_ & _ & Ea & Et & _).
    rewrite Ea in A. rewrite Et in T. auto.
  - intro H. apply NO. left. rewrite H. apply empty_not_nonEmptyStrings.
Qed.

(** *** The unique index on [slug] *)

Lemma hasSlug_spec s d : hasSlug s d = true <-> slug (snd d) = s.
Proof.
  unfold hasSlug. destruct s as [a|], (slug (snd d)) as [b|].
  - rewrite str_eqb_eq. split; congruence.
  - split; discriminate.
  - split; discriminate.
  - split; reflexivity.
Qed.

Lemma taken_spec s events :
  existsb (hasSlug s) events = true <-> exists d, In d events /\ slug (snd d) = s.
Proof.
  rewrite existsb_exists. split; intros (d & I & H); exists d; split; auto;
    now apply hasSlug_spec.
Qed.

Lemma free_spec s events :
  existsb (hasSlug s) events = false <-> ~ In s (map (fun d => slug (snd d)) events).
Proof.
  rewrite <- not_true_iff_false, taken_spec, in_map_iff. split; intros N (d & H1 & H2);
    apply N; exists d; auto.
Qed.

(** The slug of a document the creation stores is the slug of its title. *)
Lemma Event_create_slug env events a events' d :
  Event_create Date_parse env events a = inr (events', d) ->
  exists ti, title a = Some ti /\ slug (snd d) = Some (slugify (trim ti))
             /\ In d events'.
Proof.
  intro H. apply Event_create_ok in H as (_ & _ & doc & S & _ & -> & ->).
  apply preSave_ok in S as (_ & _ & _ & ti & da & tm & t & Eti & _ & _ & _ & _ & ->).
  destruct (applySetters_fields a) as (_ & _ & _ & _ & _ & Et). rewrite Et in Eti.
  destruct (title a) as [ti0|]; [|discriminate]. injection Eti as <-.
  exists ti0. split; [reflexivity|]. split.
  - simpl. destruct (saved_fields true (trim ti0) tm t (applySetters a)) as (_ & _ & -> & _).
    simpl. now rewrite trim_idem.
  - apply in_or_app. right. now left.
Qed.

(** The creation keeps every stored Event with a slug, and the slugs apart. *)
Lemma Event_create_keeps env events a events' d :
  Event_create Date_parse env events a = inr (events', d) ->
  slugsPresent events -> slugsUnique events ->
  slugsPresent events' /\ slugsUnique events'.
Proof.
  intros H P U. destruct (Event_create_slug _ _ _ _ _ H) as (ti & _ & Sl & _).
  apply Event_create_ok in H as (_ & _ & doc & _ & F & -> & ->).
  simpl in Sl. split.
  - apply Forall_app. split; [exact P|]. constructor; [|constructor].
    simpl. congruence.
  - unfold slugsUnique. rewrite map_app. simpl.
    apply free_spec in F. apply NoDup_rev in U.
    rewrite <- (rev_involutive (_ ++ _)). apply NoDup_rev.
    rewrite rev_app_distr. simpl. constructor; [|exact U].
    now rewrite <- in_rev.
Qed.

(** In a collection that creations have built, every Event has a slug and
    no two share one. *)
Lemma created_slugs events :
  created Date_parse events -> slugsPresent events /\ slugsUnique events.
Proof.
  induction 1 as [|env events attrs events' d _ [P U] H].
  - split; constructor.
  - exact (Event_create_keeps env events attrs events' d H P U).
Qed.

(** C5.  The insert under the unique index on [slug] throws the duplicate
    key error, a conflict, exactly when a stored Event has the slug of the
    document.  After a creation has stored an Event, a creation with the
    same title stores nothing: it fails, with the conflict as soon as its
    document passes the validators and the hook, and no slug is ever made
    different from the slug of the title.  In a collection built by
    creations every Event has a slug and no two Events share one. *)
Theorem slug_uniqueness (env : Env) (events : Events) :
  (forall e, answers env = true ->
     (insert env events e = inl DuplicateKey
      <-> exists d, In d events /\ slug (snd d) = slug e))
  /\ kindOf DuplicateKey = ConflictError
  /\ (forall a1 a2 events1 d1,
        Event_create Date_parse env events a1 = inr (events1, d1) ->
        title a2 = title a1 ->
        (forall events2 d2,
            Event_create Date_parse env events1 a2 <> inr (events2, d2))
        /\ (failsWith ValidationError (Event_create Date_parse env events1 a2)
            \/ failsWith ConflictError (Event_create Date_parse env events1 a2))
        /\ (validate (applySetters a2) = inr (applySetters a2) ->
            (exists doc, preSave Date_parse true (applySetters a2) = inr doc) ->
            Event_create Date_parse env events1 a2 = inl DuplicateKey))
  /\ (forall a events' d,
        Event_create Date_parse env events a = inr (events', d) ->
        (exists ti, title a = Some ti /\ slug (snd d) = Some (slugify (trim ti)))
        /\ ~ (exists d0, In d0 events /\ slug (snd d0) = slug (snd d))
        /\ (slugsPresent events -> slugsUnique events ->
            slugsPresent events' /\ slugsUnique events'))
  /\ (created Date_parse events -> slugsPresent events /\ slugsUnique events).
Proof.
  split; [|split; [reflexivity|split; [|split]]].
  - intros e A. rewrite insert_cases, A, <- taken_spec.
    destruct (existsb _ events); split; congruence.
  - intros a1 a2 events1 d1 H1 Et.
    destruct (Event_create_slug _ _ _ _ _ H1) as (ti & Eti & Sl & I).
    assert (A : answers env = true) by (apply Event_create_ok in H1; tauto).
    assert (K : forall doc, preSave Date_parse true (applySetters a2) = inr doc ->
                insert env events1 doc = inl DuplicateKey).
    { intros doc S. rewrite insert_cases, A.
      apply preSave_ok in S as (_ & _ & _ & ti' & da & tm & t & Eti' & _ & _ & _ & _ & ->).
      destruct (applySetters_fields a2) as (_ & _ & _ & _ & _ & Et2).
      rewrite Et2, Et, Eti in Eti'. simpl in Eti'. injection Eti' as <-.
      destruct (saved_fields true (trim ti) tm t (applySetters a2)) as (_ & _ & -> & _).
      simpl. rewrite trim_idem.
      assert (X : existsb (hasSlug (Some (slugify (trim ti)))) events1 = true).
      { apply taken_spec. exists d1. auto. }
      now rewrite X. }
    assert (C : failsWith ValidationError (Event_create Date_parse env events1 a2)
                \/ Event_create Date_parse env events1 a2 = inl DuplicateKey).
    { unfold Event_create.
      destruct (validate_cases (applySetters a2)) as [V|(ps & V)]; rewrite V; simpl.
      - destruct (preSave Date_parse true (applySetters a2)) as [x|doc] eqn:S; simpl.
        + left. exists x. split; [reflexivity|]. exact (preSave_failure _ _ _ S).
        + right. now apply K.
      - left. exists (SchemaValidation ps). auto. }
    split; [|split].
    + intros events2 d2 H2. destruct C as [(x & E & _)|E]; congruence.
    + destruct C as [C|C]; [now left|right]. exists DuplicateKey. auto.
    + intros V (doc & S). unfold Event_create. rewrite V. simpl. rewrite S. simpl.
      now apply K.
  - intros a events' d H. split; [|split].
    + destruct (Event_create_slug _ _ _ _ _ H) as (ti & E1 & E2 & _). eauto.
    + apply Event_create_ok in H as (_ & _ & doc & _ & F & -> & _).
      simpl. rewrite <- taken_spec. congruence.
    + exact (Event_create_keeps env events a events' d H).
  - apply created_slugs.
Qed.

End EventFacts.

(** ** The Booking schema and its hook *)

Lemma normalize_again s :
  toLowerCase (trim (toLowerCase (trim s))) = toLowerCase (trim s).
Proof. now rewrite trim_toLowerCase, trim_idem, toLowerCase_idem. Qed.

Lemma emailValidator_spec n : emailValidator n = test schemaEmailRegex n.
Proof.
  unfold emailValidator, present. destruct n as [|c t]; [reflexivity|].
  reflexivity.
Qed.

Lemma Event_exists_spec events id :
  existsb (fun d => (fst d =? id)%N) events = true <-> eventStored events id.
Proof.
  unfold eventStored. rewrite existsb_exists.
  split; intros (d & I & H); exists d; split; auto; now apply N.eqb_eq.
Qed.

(** The creation of a Booking, check by check. *)
Lemma Booking_create_cases env events bookings a :
  Booking_create env events bookings a =
    if negb (test schemaEmailRegex (toLowerCase (trim (email a))))
    then inl (SchemaValidation [PEmail])
    else if negb (answers env) then inl QueryFailed
    else if negb (existsb (fun d => (fst d =? eventId a)%N) events) then inl EventMissing
    else inr (bookings ++ [mkBooking (eventId a) (toLowerCase (trim (email a)))],
              mkBooking (eventId a) (toLowerCase (trim (email a)))).
Proof.
  unfold Booking_create, Booking_validate, Booking_applySetters. cbn [email eventId].
  rewrite emailValidator_spec, trim_toLowerCase.
  destruct (test schemaEmailRegex (toLowerCase (trim (email a)))) eqn:V; [|reflexivity].
  cbn [bind ret negb]. unfold Booking_preSave. cbn [email eventId].
  rewrite normalize_again.
  rewrite (PatternFacts.schemaEmail_simple _ V). cbn [negb].
  unfold Event_exists, roundTrip. destruct (answers env); [|reflexivity].
  destruct (existsb (fun d => (fst d =? eventId a)%N) events); reflexivity.
Qed.

(** The hook of the Booking schema, check by check. *)
Lemma Booking_preSave_cases env events b :
  Booking_preSave env events b =
    if negb (test emailRegex (toLowerCase (trim (email b)))) then inl InvalidEmail
    else if negb (answers env) then inl QueryFailed
    else if negb (existsb (fun d => (fst d =? eventId b)%N) events) then inl EventMissing
    else inr (mkBooking (eventId b) (toLowerCase (trim (email b)))).
Proof.
  unfold Booking_preSave.
  destruct (test emailRegex (toLowerCase (trim (email b)))); [|reflexivity].
  cbn [negb eventId]. unfold Event_exists, roundTrip.
  destruct (answers env); [|reflexivity].
  destruct (existsb (fun d => (fst d =? eventId b)%N) events); reflexivity.
Qed.

(** The hook throws the error of the missing reference exactly when the
    email passes its test, the database answers and no Event has the
    identifier. *)
Lemma hook_reference env events b :
  Booking_preSave env events b = inl EventMissing <->
  test emailRegex (toLowerCase (trim (email b))) = true
  /\ answers env = true /\ ~ eventStored events (eventId b).
Proof.
  rewrite Booking_preSave_cases.
  pose proof (Event_exists_spec events (eventId b)) as Y.
  destruct (test emailRegex _), (answers env),
    (existsb (fun d => (fst d =? eventId b)%N) events); cbn [negb]; split;
    try discriminate; try (intros (A & B & C); discriminate).
  - intros (_ & _ & N). exfalso. apply N, Y. reflexivity.
  - intros _. repeat split. intro H. apply Y in H. discriminate.
  - reflexivity.
Qed.

(** C1.  A Booking is stored only for an Event that is stored: the hook asks
    the Event collection for the identifier before the insert, and the
    creation of a Booking for an identifier that no stored Event has always
    fails.  Once the email has passed its validation (and the database
    answers), the creation fails with the error of the missing reference
    exactly when no Event with that identifier is stored, and stores the
    Booking when there is one. *)
Theorem booking_reference (env : Env) (events : Events) (bookings : Bookings)
    (a : BookingAttrs) :
  let n := toLowerCase (trim (email a)) in
  (~ eventStored events (eventId a) ->
     forall bookings' b, Booking_create env events bookings a <> inr (bookings', b))
  /\ (Booking_create env events bookings a = inl EventMissing ->
        ~ eventStored events (eventId a))
  /\ kindOf EventMissing = ReferenceError
  /\ (test schemaEmailRegex n = true -> answers env = true ->
        (Booking_create env events bookings a = inl EventMissing
         <-> ~ eventStored events (eventId a))
        /\ (failsWith ReferenceError (Booking_create env events bookings a)
            <-> ~ eventStored events (eventId a))
        /\ (eventStored events (eventId a) ->
              Booking_create env events bookings a
              = inr (bookings ++ [mkBooking (eventId a) n], mkBooking (eventId a) n)))
  /\ (forall b,
        Booking_preSave env events b = inl EventMissing <->
        test emailRegex (toLowerCase (trim (email b))) = true
        /\ answers env = true /\ ~ eventStored events (eventId b)).
Proof.
  intro n. rewrite Booking_create_cases. fold n.
  pose proof (Event_exists_spec events (eventId a)) as X.
  destruct (existsb (fun d => (fst d =? eventId a)%N) events) eqn:F.
  - assert (S : eventStored events (eventId a)) by now apply X.
    split; [intros N; contradiction|]. split.
    { cbv zeta. destruct (test schemaEmailRegex n), (answers env); discriminate. }
    split; [reflexivity|]. split.
    + intros -> ->. cbv zeta. cbn [negb]. split; [|split].
      * split; [discriminate|contradiction].
      * split; [intros (x & H & _); discriminate|contradiction].
      * reflexivity.
    + intros b. apply hook_reference.
  - assert (S : ~ eventStored events (eventId a)).
    { intro H. apply X in H. discriminate. }
    split.
    { intros _ bookings' b. cbv zeta.
      destruct (test schemaEmailRegex n), (answers env); discriminate. }
    split; [auto|]. split; [reflexivity|]. split.
    + intros -> ->. cbv zeta. cbn [negb]. split; [|split].
      * tauto.
      * split; [auto|]. intros _. exists EventMissing. auto.
      * contradiction.
    + intros b. apply hook_reference.
Qed.

(** C2, as amended.  On every creation of a Booking the email is normalized
    to its trimmed lowercase form.  The creation fails with an error of
    validation exactly when the normalized email does not match the pattern of
    the validator of the schema, [^[a-zA-Z0-9._%+-]+@[a-zA-Z0-9.-]+\.[a-zA-Z]{2,}$];
    an email that matches it also matches the pattern of the hook,
    [^[^\s@]+@[^\s@]+\.[^\s@]+$], which by itself is all the hook tests.  On
    success the stored email is the trimmed lowercase form: A@B.COM is stored
    as a@b.com. *)
Theorem booking_email (env : Env) (events : Events) (bookings : Bookings)
    (a : BookingAttrs) :
  let n := toLowerCase (trim (email a)) in
  (failsWith ValidationError (Booking_create env events bookings a)
   <-> test schemaEmailRegex n = false)
  /\ (test schemaEmailRegex n = true -> test emailRegex n = true)
  /\ (failsWith ValidationError (Booking_preSave env events a)
      <-> test emailRegex n = false)
  /\ (forall bookings' b,
        Booking_create env events bookings a = inr (bookings', b) ->
        email b = n /\ eventId b = eventId a /\ bookings' = bookings ++ [b]
        /\ test schemaEmailRegex n = true)
  /\ (answers env = true -> eventStored events (eventId a) ->
      email a = lit "A@B.COM" ->
      Booking_create env events bookings a
      = inr (bookings ++ [mkBooking (eventId a) (lit "a@b.com")],
             mkBooking (eventId a) (lit "a@b.com"))).
Proof.
  intro n. rewrite Booking_create_cases, Booking_preSave_cases. fold n. cbv zeta.
  pose proof (Event_exists_spec events (eventId a)) as X.
  split; [|split; [|split; [|split]]].
  - destruct (test schemaEmailRegex n); cbn [negb].
    + split; [|discriminate]. intros (x & H & K).
      destruct (answers env), (existsb (fun d => (fst d =? eventId a)%N) events); cbn [negb] in H;
        try discriminate; injection H as <-; discriminate.
    + split; [reflexivity|]. intros _. exists (SchemaValidation [PEmail]). auto.
  - apply PatternFacts.schemaEmail_simple.
  - destruct (test emailRegex n); cbn [negb].
    + split; [|discriminate]. intros (x & H & K).
      destruct (answers env), (existsb (fun d => (fst d =? eventId a)%N) events); cbn [negb] in H;
        try discriminate; injection H as <-; discriminate.
    + split; [reflexivity|]. intros _. exists InvalidEmail. auto.
  - intros bookings' b.
    destruct (test schemaEmailRegex n), (answers env), (existsb (fun d => (fst d =? eventId a)%N) events);
      cbn [negb]; try discriminate.
    intro H. injection H as <- <-. auto.
  - intros A S E. apply X in S. unfold n. rewrite E, A, S. reflexivity.
Qed.

(** ** The route handlers *)

Lemma normalizeAndValidateSlug_spec raw n :
  normalizeAndValidateSlug (Some raw) = Some n <->
  n = toLowerCase (trim raw) /\ n <> [] /\ test slugPattern n = true.
Proof.
  unfold normalizeAndValidateSlug.
  destruct (toLowerCase (trim raw)) as [|c t] eqn:E; cbn [falsy].
  - split; [discriminate|]. intros (-> & N & _). congruence.
  - destruct (test slugPattern (c :: t)) eqn:T; cbn [negb]; split.
    + intro H. injection H as <-. repeat split; [discriminate|exact T].
    + now intros (-> & _).
    + discriminate.
    + intros (-> & _ & T'). congruence.
Qed.

Lemma missingOrBlank_spec param :
  missingOrBlank param = true <->
  param = None \/ exists raw, param = Some raw /\ trim raw = [].
Proof.
  unfold missingOrBlank. destruct param as [raw|]; cbn [falsy].
  - assert (B : str_eqb (trim raw) [] = true <-> trim raw = []) by apply str_eqb_eq.
    destruct raw as [|c t].
    + split; [|reflexivity]. intros _. right. exists []. auto.
    + rewrite orb_false_l, B. split.
      * intro H. right. eauto.
      * intros [H|(raw & H & T)]; [discriminate|]. now injection H as <-.
  - split; [auto|reflexivity].
Qed.

Lemma missingOrBlank_invalid param :
  missingOrBlank param = true -> normalizeAndValidateSlug param = None.
Proof.
  intro H. apply missingOrBlank_spec in H as [->|(raw & -> & T)]; [reflexivity|].
  unfold normalizeAndValidateSlug. now rewrite T.
Qed.

(** The handler, branch by branch. *)
Lemma GET_cases env events param :
  GET env events param =
    if negb (connects env)
    then jsonError (lit "Failed to fetch event. Please try again later.") 500
    else if missingOrBlank param
    then jsonError (lit "Invalid or missing slug parameter") 404
    else if negb (answers env)
    then jsonError (lit "Failed to fetch event. Please try again later.") 500
    else
      match find (hasSlug (normalizeAndValidateSlug param)) events with
      | Some d => json (BEvent (lit "API fetched successfully") d) 200
      | None =>
          jsonError (lit "Event with " ++ interpolate param ++ lit " not found") 404
      end.
Proof.
  unfold GET, GET_try, connectToDatabase, Event_findOne, roundTrip.
  destruct (connects env); [|reflexivity]. cbn [bind ret negb].
  destruct (missingOrBlank param); [reflexivity|].
  destruct (answers env); [|reflexivity]. cbn [bind ret negb].
  now destruct (find _ events).
Qed.



Section HandlerFacts.

Variable Date_parse : str -> option Z.

(** The handler, branch by branch. *)
Lemma POST_cases env events req :
  POST Date_parse env events req =
    if negb (connects env)
    then (json (BFailure (lit "Event Creation Failed") ConnectionFailed) 500, events)
    else
      match formData req with
      | inl e => (json (BFailure (lit "Event Creation Failed") e) 500, events)
      | inr form =>
          match Event_create Date_parse env events (castEvent form) with
          | inl e => (json (BFailure (lit "Event Creation Failed") e) 500, events)
          | inr (events', d) =>
              (json (BEvent (lit "Event created successfully") d) 201, events')
          end
      end.
Proof.
  unfold POST, POST_try, connectToDatabase.
  destruct (connects env); [|reflexivity]. cbn [bind ret negb].
  destruct (formData req) as [e|form]; [reflexivity|]. cbn [bind ret Object_fromEntries].
  destruct (Event_create Date_parse env events (castEvent form)) as [e|[events' d]];
    reflexivity.
Qed.

(** C3.  [POST /api/events] answers 201 with the created Event when the
    creation succeeds, and 500 with the message of the exception on every
    failure.  A body that is not an encoded form is one of these failures:
    the response is 500, and no request is answered with 400. *)
Theorem POST_responses (env : Env) (events : Events) (req : NextRequest) :
  (forall e, formData req = inl e ->
     POST Date_parse env events req
     = (json (BFailure (lit "Event Creation Failed")
                (if connects env then e else ConnectionFailed)) 500, events))
  /\ status (fst (POST Date_parse env events req)) <> 400%N
  /\ (forall form events' d,
        connects env = true -> formData req = inr form ->
        Event_create Date_parse env events (castEvent form) = inr (events', d) ->
        POST Date_parse env events req
        = (json (BEvent (lit "Event created successfully") d) 201, events'))
  /\ (forall e, POST_try Date_parse env events req = inl e ->
        POST Date_parse env events req
        = (json (BFailure (lit "Event Creation Failed") e) 500, events))
  /\ (status (fst (POST Date_parse env events req)) = 201%N
      \/ status (fst (POST Date_parse env events req)) = 500%N).
Proof.
  split; [|split; [|split; [|split]]].
  - intros e H. rewrite POST_cases, H. now destruct (connects env).
  - rewrite POST_cases. destruct (connects env); [|discriminate]. cbn [negb].
    destruct (formData req) as [e|form]; [discriminate|].
    destruct (Event_create _ _ _ _) as [e|[events' d]]; discriminate.
  - intros form events' d C F H. now rewrite POST_cases, C, F, H.
  - intros e H. unfold POST. now rewrite H.
  - rewrite POST_cases. destruct (connects env); [|now right]. cbn [negb].
    destruct (formData req) as [e|form]; [now right|].
    destruct (Event_create _ _ _ _) as [e|[events' d]]; [now right|now left].
Qed.

End HandlerFacts.

(** ** More about the slug generator *)

Section Kept.

(** [q] is a class that none of the replacements touches. *)
Variable q : ascii -> bool.

Lemma filter_dropWhile p s :
  (forall c, q c = true -> p c = false) -> filter q (dropWhile p s) = filter q s.
Proof.
  intro H. induction s as [|c t IH]; simpl; [reflexivity|].
  destruct (p c) eqn:P; [|reflexivity].
  destruct (q c) eqn:Q; [|exact IH]. rewrite (H c Q) in P. discriminate.
Qed.

Lemma filter_rev_str (s : str) : filter q (rev s) = rev (filter q s).
Proof.
  induction s as [|c t IH]; simpl; [reflexivity|].
  rewrite filter_app, IH. simpl. destruct (q c); simpl; [reflexivity|apply app_nil_r].
Qed.

Lemma filter_trim s :
  (forall c, q c = true -> isWhiteSpace c = false) -> filter q (trim s) = filter q s.
Proof.
  intro H. unfold trim, trimEnd, trimStart.
  rewrite filter_rev_str, (filter_dropWhile _ _ H), filter_rev_str, rev_involutive.
  apply (filter_dropWhile _ _ H).
Qed.

Lemma filter_removeAll p s :
  (forall c, q c = true -> p c = false) -> filter q (removeAll p s) = filter q s.
Proof.
  intro H. unfold removeAll. induction s as [|c t IH]; simpl; [reflexivity|].
  destruct (q c) eqn:Q.
  - rewrite (H c Q). simpl. now rewrite Q, IH.
  - destruct (p c); simpl; [exact IH|]. now rewrite Q.
Qed.

Lemma filter_replaceRuns b p r s :
  (forall c, q c = true -> p c = false) -> filter q r = [] ->
  filter q (replaceRunsFrom b p r s) = filter q s.
Proof.
  intros H R. revert b. induction s as [|c t IH]; intro b; simpl; [reflexivity|].
  destruct (p c) eqn:P.
  - rewrite filter_app, IH.
    assert (Q : q c = false).
    { destruct (q c) eqn:Q; [|reflexivity]. rewrite (H c Q) in P. discriminate. }
    rewrite Q. destruct b; simpl; [reflexivity|now rewrite R].
  - simpl. now rewrite IH.
Qed.

Lemma filter_dropFirstIf p s :
  (forall c, q c = true -> p c = false) -> filter q (dropFirstIf p s) = filter q s.
Proof.
  intro H. destruct s as [|c t]; simpl; [reflexivity|].
  destruct (p c) eqn:P; [|reflexivity].
  destruct (q c) eqn:Q; [|reflexivity]. rewrite (H c Q) in P. discriminate.
Qed.

Lemma filter_stripEdges p s :
  (forall c, q c = true -> p c = false) -> filter q (stripEdges p s) = filter q s.
Proof.
  intro H. unfold stripEdges.
  rewrite filter_rev_str, (filter_dropFirstIf _ _ H), filter_rev_str, rev_involutive.
  apply (filter_dropFirstIf _ _ H).
Qed.

End Kept.

Lemma isAlnum_keep c : isAlnum c = true -> negb (slugKeep c) = false.
Proof. by_code_unit c. Qed.

(** X1.  The letters and digits of the lowercased title are the letters and
    digits of the slug, in the same order: [slugify] drops and joins what is
    between them, and nothing else.  So the slug is empty exactly when the
    lowercased title holds no letter and no digit. *)
Theorem slugify_keeps_alnum (value : str) :
  filter isAlnum (slugify value) = filter isAlnum (toLowerCase value)
  /\ (slugify value = [] <-> Forall (fun c => isAlnum c = false) (toLowerCase value)).
Proof.
  assert (W : forall c, isAlnum c = true -> isWhiteSpace c = false).
  { intros c H. now apply slugChar_not_space, isAlnum_slugChar. }
  assert (K : filter isAlnum (slugify value) = filter isAlnum (toLowerCase value)).
  { unfold slugify, replaceRuns.
    rewrite (filter_stripEdges _ _ _ isAlnum_not_dash).
    rewrite (filter_replaceRuns isAlnum false isDash (lit "-") _ isAlnum_not_dash eq_refl).
    rewrite (filter_replaceRuns isAlnum false isWhiteSpace (lit "-") _ W eq_refl).
    rewrite (filter_removeAll _ _ _ isAlnum_keep).
    apply (filter_trim _ _ W). }
  split; [exact K|]. split.
  - intro E. rewrite E in K. simpl in K.
    apply Forall_forall. intros c I.
    destruct (isAlnum c) eqn:A; [|reflexivity].
    assert (X : In c (filter isAlnum (toLowerCase value))) by (apply filter_In; auto).
    rewrite <- K in X. destruct X.
  - apply slugify_without_alnum.
Qed.

Lemma length_dropWhile p s : (List.length (dropWhile p s) <= List.length s)%nat.
Proof.
  induction s as [|c t IH]; simpl; [lia|]. destruct (p c); simpl; lia.
Qed.

Lemma length_trim s : (List.length (trim s) <= List.length s)%nat.
Proof.
  unfold trim, trimEnd, trimStart. rewrite length_rev.
  pose proof (length_dropWhile isWhiteSpace (rev (dropWhile isWhiteSpace s))) as H1.
  pose proof (length_dropWhile isWhiteSpace s) as H2.
  rewrite length_rev in H1. lia.
Qed.

Lemma length_replaceRuns b p r s :
  (List.length r <= 1)%nat ->
  (List.length (replaceRunsFrom b p r s) <= List.length s)%nat.
Proof.
  intro R. revert b. induction s as [|c t IH]; intro b; simpl; [lia|].
  destruct (p c).
  - rewrite length_app. specialize (IH true). destruct b; simpl; lia.
  - simpl. specialize (IH false). lia.
Qed.

Lemma length_dropFirstIf p s : (List.length (dropFirstIf p s) <= List.length s)%nat.
Proof. destruct s as [|c t]; simpl; [lia|]. destruct (p c); simpl; lia. Qed.

Lemma length_stripEdges p s : (List.length (stripEdges p s) <= List.length s)%nat.
Proof.
  unfold stripEdges. rewrite length_rev.
  pose proof (length_dropFirstIf p (rev (dropFirstIf p s))) as H1.
  pose proof (length_dropFirstIf p s) as H2.
  rewrite length_rev in H1. lia.
Qed.

(** X2.  A slug is never longer than its title. *)
Theorem slugify_length (value : str) :
  (List.length (slugify value) <= List.length value)%nat.
Proof.
  unfold slugify, replaceRuns.
  pose proof (length_trim (toLowerCase value)) as H0.
  unfold toLowerCase in H0 at 2. rewrite length_map in H0.
  remember (trim (toLowerCase value)) as s0 eqn:E0.
  assert (H1 : (List.length (removeAll (fun c => negb (slugKeep c)) s0)
                <= List.length s0)%nat) by apply filter_length_le.
  remember (removeAll (fun c => negb (slugKeep c)) s0) as s1 eqn:E1.
  pose proof (length_replaceRuns false isWhiteSpace (lit "-") s1 (le_n 1)) as H2.
  remember (replaceRunsFrom false isWhiteSpace (lit "-") s1) as s2 eqn:E2.
  pose proof (length_replaceRuns false isDash (lit "-") s2 (le_n 1)) as H3.
  remember (replaceRunsFrom false isDash (lit "-") s2) as s3 eqn:E3.
  pose proof (length_stripEdges isDash s3) as H4.
  lia.
Qed.

Lemma slugify_trim (value : str) : slugify (trim value) = slugify value.
Proof. unfold slugify. now rewrite <- trim_toLowerCase, trim_idem. Qed.

(** X3.  The case of the letters of a title and the white space around it
    make no difference to its slug. *)
Theorem slugify_insensitive (value : str) :
  slugify (toLowerCase value) = slugify value
  /\ slugify (trim value) = slugify value
  /\ (forall other, toLowerCase (trim other) = toLowerCase (trim value) ->
        slugify other = slugify value).
Proof.
  assert (T : forall v, slugify v = slugify (toLowerCase (trim v))).
  { intro v. unfold slugify.
    now rewrite toLowerCase_idem, <- trim_toLowerCase, trim_idem. }
  split; [|split].
  - unfold slugify. now rewrite toLowerCase_idem.
  - apply slugify_trim.
  - intros other H. now rewrite (T other), (T value), H.
Qed.

(** ** More about the Event hook *)

Lemma isDigit_digit n : isDigit (digit n) = true.
Proof.
  unfold digit. pose proof (Z.mod_pos_bound n 10 eq_refl) as B.
  assert (H : (n mod 10 = 0 \/ n mod 10 = 1 \/ n mod 10 = 2 \/ n mod 10 = 3
               \/ n mod 10 = 4 \/ n mod 10 = 5 \/ n mod 10 = 6 \/ n mod 10 = 7
               \/ n mod 10 = 8 \/ n mod 10 = 9)%Z) by lia.
  repeat (destruct H as [H|H]; [rewrite H; reflexivity|]). rewrite H. reflexivity.
Qed.

Lemma isDigit_not_space c : isDigit c = true -> isWhiteSpace c = false.
Proof. by_code_unit c. Qed.

Lemma pad_starts w n : startsWith isWhiteSpace (pad (S w) n) = false /\ pad (S w) n <> [].
Proof.
  revert n. induction w as [|w IH]; intro n.
  - simpl. split; [apply isDigit_not_space, isDigit_digit|discriminate].
  - change (pad (S (S w)) n) with (pad (S w) (n / 10) ++ [digit n]).
    destruct (IH (n / 10)%Z) as [St N]. split.
    + now rewrite startsWith_app.
    + destruct (pad (S w) (n / 10)); [congruence|discriminate].
Qed.

(** An ISO string has no white space at its ends: it starts with the year
    and ends with Z. *)
Lemma toISOString_trimmed t : trim (toISOString t) = toISOString t /\ toISOString t <> [].
Proof.
  assert (Y : forall y, startsWith isWhiteSpace (isoYear y) = false /\ isoYear y <> []).
  { intro y. unfold isoYear. destruct ((0 <=? y)%Z && (y <=? 9999)%Z).
    - apply pad_starts.
    - destruct (y <? 0)%Z; simpl; split; try reflexivity; discriminate. }
  unfold toISOString. destruct (civilFromDays (t / msPerDay)) as [[y m] d].
  destruct (Y y) as [St N]. split.
  - apply trim_id.
    + now rewrite startsWith_app.
    + rewrite !app_assoc. now rewrite endsWith_app.
  - destruct (isoYear y); [congruence|discriminate].
Qed.

Lemma option_map_trim_idem v : option_map trim (option_map trim v) = option_map trim v.
Proof. destruct v; simpl; [now rewrite trim_idem|reflexivity]. Qed.

Lemma find_same {A : Type} (f g : A -> bool) (l : list A) :
  (forall x, f x = g x) -> find f l = find g l.
Proof. intro H. induction l as [|x l IH]; simpl; [reflexivity|]. now rewrite H, IH. Qed.

(** The loop stops at the first blank field. *)
Lemma requireStrings_first fields :
  forall e,
    requireStrings fields e =
      match find (fun f => blank (get f e)) fields with
      | Some f => inl (FieldRequired f)
      | None => inr (fold_left (fun e f => set f (option_map trim (get f e)) e) fields e)
      end.
Proof.
  induction fields as [|f rest IH]; intro e; simpl; [reflexivity|].
  destruct (blank (get f e)) eqn:B; [reflexivity|].
  rewrite IH. simpl.
  rewrite (find_same (fun g => blank (get g (set f (option_map trim (get f e)) e)))
                     (fun g => blank (get g e))); [reflexivity|].
  intro g. apply blank_get_step.
Qed.

Lemma firstBlank_none e : firstBlank e = None <-> stringsPresent e = true.
Proof.
  unfold firstBlank, stringsPresent. rewrite forallb_forall. split.
  - intros H f I. apply negb_true_iff. exact (find_none _ _ H f I).
  - intro H. destruct (find _ requiredStringFields) as [f|] eqn:F; [|reflexivity].
    apply find_some in F as [I B]. apply H in I. rewrite B in I. discriminate.
Qed.

Lemma get_trimStrings f e : get f (trimStrings e) = option_map trim (get f e).
Proof. destruct e, f; reflexivity. Qed.

Lemma get_saved m ti tm d e f :
  time e = Some tm ->
  get f (saved m ti tm d e)
  = match f with
    | Date => Some (toISOString d)
    | _ => option_map trim (get f e)
    end.
Proof.
  intro T. unfold saved. destruct e as [ti0 sl de ov im ve lo da tm0 mo au ag og ta].
  cbn [time] in T. subst tm0. cbn [slug].
  destruct (m || falsy sl), f; reflexivity.
Qed.

Lemma blank_time_pattern tm : test timePattern (trim tm) = true -> blank (Some tm) = false.
Proof.
  intro M. apply PatternFacts.timePattern_spec in M as (h1 & h2 & m1 & m2 & E & _).
  simpl. now rewrite E.
Qed.

Lemma saved_present m ti tm d e :
  stringsPresent e = true -> time e = Some tm ->
  stringsPresent (saved m ti tm d e) = true.
Proof.
  intros P T. unfold stringsPresent. apply forallb_forall. intros f _.
  rewrite (get_saved m ti tm d e f T). apply negb_true_iff.
  destruct f; try (rewrite blank_trim; apply stringsPresent_get; exact P).
  destruct (toISOString_trimmed d) as [Tr N].
  destruct (blank (Some (toISOString d))) eqn:B; [|reflexivity].
  apply blank_Some in B. congruence.
Qed.

Lemma attrs_eq a b :
  (forall f, get f a = get f b) -> slug a = slug b ->
  agenda a = agenda b -> tags a = tags b -> a = b.
Proof.
  intros G S A T. destruct a, b. cbn [slug agenda tags] in *.
  pose proof (G Title) as G1. pose proof (G Description) as G2.
  pose proof (G Overview) as G3. pose proof (G Image) as G4.
  pose proof (G Venue) as G5. pose proof (G Location) as G6.
  pose proof (G Date) as G7. pose proof (G Time) as G8.
  pose proof (G Mode) as G9. pose proof (G Audience) as G10.
  pose proof (G Organizer) as G11. cbn [get title description overview image venue
    location date time mode audience organizer] in *. congruence.
Qed.

Lemma saved_trimmed m ti tm d e :
  time e = Some tm -> trimStrings (saved m ti tm d e) = saved m ti tm d e.
Proof.
  intro T. apply attrs_eq.
  - intro f. rewrite get_trimStrings, (get_saved m ti tm d e f T).
    destruct f; try apply option_map_trim_idem.
    simpl. f_equal. apply toISOString_trimmed.
  - apply trimStrings_fields.
  - apply trimStrings_fields.
  - apply trimStrings_fields.
Qed.

Section MoreEventFacts.

Variable Date_parse : str -> option Z.

(** X4.  The hook reports the first required string field that is blank, in
    the order title, description, overview, image, venue, location, date,
    time, mode, audience, organizer; no field is blank exactly when the loop
    lets the document through.  When the hook succeeds, every one of these
    fields but the date is stored trimmed. *)
Theorem required_strings (m : bool) (e : EventAttrs) :
  (forall f, preSave Date_parse m e = inl (FieldRequired f) <-> firstBlank e = Some f)
  /\ (firstBlank e = None <-> stringsPresent e = true)
  /\ (forall f, firstBlank e = Some f ->
        blank (get f e) = true
        /\ failsWith ValidationError (preSave Date_parse m e))
  /\ (forall e', preSave Date_parse m e = inr e' ->
        forall f, f <> Date ->
          exists v, get f e = Some v /\ trim v <> [] /\ get f e' = Some (trim v)).
Proof.
  assert (R : requireStrings requiredStringFields e
              = match firstBlank e with
                | Some f => inl (FieldRequired f)
                | None => inr (trimStrings e)
                end) by apply requireStrings_first.
  assert (F : forall f, firstBlank e = Some f ->
              preSave Date_parse m e = inl (FieldRequired f)).
  { intros f H. unfold preSave. rewrite R, H. reflexivity. }
  split; [|split; [apply firstBlank_none|split]].
  - intro f. split; [|apply F].
    intro H. destruct (firstBlank e) as [g|] eqn:B.
    + rewrite (F g eq_refl) in H. congruence.
    + apply firstBlank_none in B.
      apply preSave_stops in H as [(g & _ & P & _)|(_ & [[X _]|(_ & [[X _]|(_ & da & tm & _ & _ & [[X _]|(X & _)])])])];
        congruence.
  - intros f H. split.
    + unfold firstBlank in H. now apply find_some in H.
    + exists (FieldRequired f). split; [now apply F|reflexivity].
  - intros e' H f N.
    apply preSave_ok in H as (P & _ & _ & ti & da & tm & d & _ & _ & Etm & _ & _ & ->).
    destruct (get_present e f (stringsPresent_get e f P)) as (v & Ev & Tv).
    exists v. split; [exact Ev|]. split; [exact Tv|].
    rewrite (get_saved m ti tm d e f Etm), Ev. now destruct f.
Qed.

(** X5.  When the hook succeeds, the slug it leaves is the slug of the trimmed
    title if the title was modified or the document had no slug, and the slug
    the document had otherwise.  So a creation never keeps a slug that was
    supplied, and a save that does not touch the title keeps the slug. *)
Theorem slug_rule (m : bool) (e e' : EventAttrs) :
  preSave Date_parse m e = inr e' ->
  exists ti,
    title e = Some ti /\ title e' = Some (trim ti)
    /\ slug e' = (if m || falsy (slug e) then Some (slugify (trim ti)) else slug e)
    /\ (m = true -> slug e' = Some (slugify (trim ti)))
    /\ (forall c s, m = false -> slug e = Some (c :: s) -> slug e' = Some (c :: s)).
Proof.
  intro H.
  apply preSave_ok in H as (_ & _ & _ & ti & da & tm & d & Eti & _ & _ & _ & _ & ->).
  destruct (saved_fields m ti tm d e) as (_ & _ & Sl & Ti & _).
  exists ti. split; [exact Eti|]. split; [now rewrite Ti, Eti|].
  split; [exact Sl|]. split.
  - intros ->. exact Sl.
  - intros c s -> E. rewrite Sl, E. reflexivity.
Qed.

(** What the hook leaves is well formed. *)
Lemma preSave_wellFormed e e' : preSave Date_parse true e = inr e' -> wellFormed e'.
Proof.
  intro H.
  apply preSave_ok in H as (P & A & T & ti & da & tm & d & Eti & _ & Etm & _ & M & ->).
  destruct (saved_fields true ti tm d e) as (St & Sd & Sl & Sti & Sa & Stg).
  unfold wellFormed. rewrite Sa, Stg, Sd, St, Sl, Sti, Eti.
  split; [now apply saved_present|]. split; [now apply saved_trimmed|].
  split; [exact A|]. split; [exact T|]. split; [eauto|].
  split; [exists (trim tm); now split|].
  exists (trim ti). now split.
Qed.

(** X6.  Saving a document that the hook has left changes nothing, as long as
    the platform parses the stored date, an ISO string, to an instant whose
    ISO string it is: the hook is idempotent.  (With the title marked as modified this
    holds when the slug is the slug of the title, as after a creation.) *)
Theorem resave_stable (m : bool) (e e' : EventAttrs) :
  preSave Date_parse m e = inr e' ->
  (forall s, date e' = Some s ->
     exists t, Date_parse s = Some t /\ toISOString t = s) ->
  preSave Date_parse false e' = inr e'
  /\ (m = true -> preSave Date_parse true e' = inr e').
Proof.
  intros H Rt.
  apply preSave_ok in H as (P & A & T & ti & da & tm & d & Eti & _ & Etm & _ & M & E').
  destruct (saved_fields m ti tm d e) as (St & Sd & Sl & Sti & Sa & Stg).
  rewrite <- E' in *.
  destruct (Rt _ Sd) as (t & Pt & Et).
  assert (Ok : forall m', (m' || falsy (slug e') = true -> slug e' = Some (slugify (trim ti))) ->
           preSave Date_parse m' e' = inr e').
  { intros m' Hs. apply preSave_ok.
    split; [rewrite E'; now apply saved_present|].
    rewrite Sa, Stg. split; [exact A|]. split; [exact T|].
    exists (trim ti), (toISOString d), (trim tm), t.
    split; [now rewrite Sti, Eti|]. split; [exact Sd|]. split; [exact St|].
    destruct (toISOString_trimmed d) as [Tr _]. rewrite Tr, trim_idem.
    split; [exact Pt|]. split; [exact M|].
    apply attrs_eq.
    - intro f. rewrite (get_saved m' (trim ti) (trim tm) t e' f St).
      destruct f; try (rewrite E'; rewrite (get_saved m ti tm d e _ Etm);
                       symmetry; apply option_map_trim_idem).
      rewrite Et. exact Sd.
    - destruct (saved_fields m' (trim ti) (trim tm) t e') as (_ & _ & -> & _).
      destruct (m' || falsy (slug e')) eqn:C; [|reflexivity].
      rewrite trim_idem. now apply Hs.
    - symmetry. apply saved_fields.
    - symmetry. apply saved_fields. }
  split.
  - apply Ok. rewrite Sl. destruct (m || falsy (slug e)) eqn:C; [reflexivity|].
    simpl. apply orb_false_iff in C as [_ C]. congruence.
  - intros ->. apply Ok. intros _. exact Sl.
Qed.

End MoreEventFacts.

(** ** More about the collections *)

Lemma freshId_above events d : In d events -> (fst d < freshId events)%N.
Proof.
  unfold freshId. induction events as [|x l IH]; simpl; [tauto|].
  pose proof (N.le_max_l (fst x) (fold_right N.max 0%N (map fst l))) as L.
  pose proof (N.le_max_r (fst x) (fold_right N.max 0%N (map fst l))) as R.
  intros [->|I]; apply N.lt_succ_r; [exact L|].
  specialize (IH I). apply N.lt_succ_r in IH. now transitivity (fold_right N.max 0%N (map fst l)).
Qed.

Lemma eventStored_more events d id :
  eventStored events id -> eventStored (events ++ [d]) id.
Proof. intros (x & I & E). exists x. split; [apply in_or_app; now left|exact E]. Qed.

Lemma falsy_not_present v : falsy v = true -> present v = false.
Proof. unfold present. now intros ->. Qed.

Section MoreStoreFacts.

Variable Date_parse : str -> option Z.

Lemma Event_create_wellFormed env events a events' d :
  Event_create Date_parse env events a = inr (events', d) ->
  events' = events ++ [d] /\ fst d = freshId events /\ wellFormed (snd d)
  /\ ~ In (slug (snd d)) (map (fun x => slug (snd x)) events).
Proof.
  intro H. apply Event_create_ok in H as (_ & _ & doc & S & F & -> & ->).
  split; [reflexivity|]. split; [reflexivity|].
  split; [exact (preSave_wellFormed Date_parse _ _ S)|]. now apply free_spec.
Qed.

Lemma created_wellFormed (events : Events) :
  created Date_parse events -> Forall (fun d => wellFormed (snd d)) events.
Proof.
  induction 1 as [|env events attrs events' d _ W H]; [constructor|].
  apply Event_create_wellFormed in H as (-> & _ & Wd & _).
  apply Forall_app. split; [exact W|]. now constructor.
Qed.

(** X7.  In a collection built by creations, from the empty one, every
    document is as the hook leaves it: its required strings are trimmed and
    not blank, its agenda and tags are non-empty lists of non-empty strings,
    its date is an ISO string, its time matches the pattern and its slug is
    the slug of its title.  The identifiers are pairwise different. *)
Theorem created_documents (events : Events) :
  created Date_parse events ->
  Forall (fun d => wellFormed (snd d)) events /\ NoDup (map fst events).
Proof.
  intro C. split; [now apply created_wellFormed|].
  induction C as [|env events attrs events' d _ U H]; [constructor|].
  apply Event_create_wellFormed in H as (-> & Id & _ & _).
  rewrite map_app. simpl. apply NoDup_rev in U.
  rewrite <- (rev_involutive (_ ++ _)). apply NoDup_rev.
  rewrite rev_app_distr. simpl. constructor; [|exact U].
  rewrite <- in_rev. intro I. apply in_map_iff in I as (x & E & I).
  apply freshId_above in I. unfold EventDocument, ObjectId in *.
  rewrite E, Id in I. exact (N.lt_irrefl _ I).
Qed.

(** X8.  Two titles with one slug cannot both be created: once an Event is
    stored, the creation of an Event whose title gives the same slug stores
    nothing, whatever its other attributes, and meets the unique index as
    soon as its document passes the validators and the hook.  Titles that
    differ by case, by punctuation or by white space collide, and so do any
    two titles without a letter or a digit, whose slug is empty. *)
Theorem slug_collision (env env' : Env) (events events1 : Events)
    (a1 a2 : EventAttrs) (d1 : EventDocument) (t1 t2 : str) :
  Event_create Date_parse env events a1 = inr (events1, d1) ->
  title a1 = Some t1 -> title a2 = Some t2 ->
  slugify t1 = slugify t2 ->
  (forall events2 d2, Event_create Date_parse env' events1 a2 <> inr (events2, d2))
  /\ (answers env' = true ->
      validate (applySetters a2) = inr (applySetters a2) ->
      (exists doc, preSave Date_parse true (applySetters a2) = inr doc) ->
      Event_create Date_parse env' events1 a2 = inl DuplicateKey).
Proof.
  intros H1 E1 E2 Sl.
  assert (T : forall t, slugify (trim t) = slugify t) by apply slugify_trim.
  destruct (Event_create_slug Date_parse _ _ _ _ _ H1) as (ti & Eti & S1 & I1).
  assert (ti = t1) as -> by congruence.
  assert (K : forall doc, preSave Date_parse true (applySetters a2) = inr doc ->
              existsb (hasSlug (slug doc)) events1 = true).
  { intros doc S. apply taken_spec. exists d1. split; [exact I1|].
    apply preSave_ok in S as (_ & _ & _ & ti' & da & tm & t & Eti' & _ & _ & _ & _ & ->).
    destruct (applySetters_fields a2) as (_ & _ & _ & _ & _ & Et2).
    rewrite Et2, E2 in Eti'. simpl in Eti'. injection Eti' as <-.
    destruct (saved_fields true (trim t2) tm t (applySetters a2)) as (_ & _ & -> & _).
    simpl. now rewrite S1, trim_idem, !T, Sl. }
  split.
  - intros events2 d2 H2. apply Event_create_ok in H2 as (_ & _ & doc & S & F & _).
    rewrite (K doc S) in F. discriminate.
  - intros A V (doc & S). unfold Event_create. rewrite V. simpl. rewrite S. simpl.
    rewrite insert_cases, A, (K doc S). reflexivity.
Qed.

Lemma validate_needs_slug (a : EventAttrs) :
  falsy (slug a) = true ->
  exists failing,
    validate (applySetters a) = inl (SchemaValidation failing) /\ In PSlug failing.
Proof.
  intro F. unfold validate.
  assert (I : In PSlug (filter (fun p => negb (pathValid (applySetters a) p)) eventPaths)).
  { apply filter_In. split; [simpl; tauto|].
    cbn [pathValid]. destruct (applySetters_fields a) as (_ & _ & _ & _ & -> & _).
    now rewrite (falsy_not_present _ F). }
  destruct (filter _ eventPaths) as [|p ps] eqn:E; [destruct I|].
  exists (p :: ps). split; [reflexivity|exact I].
Qed.

(** X9.  The validators of the schema run before the hook, and the path
    [slug] is required: a creation whose attributes carry no slug, or an
    empty one, fails with the error of the validators, which names the path,
    and the hook that would have made the slug is not reached. *)
Theorem create_needs_slug (env : Env) (events : Events) (a : EventAttrs) :
  falsy (slug a) = true ->
  exists failing,
    Event_create Date_parse env events a = inl (SchemaValidation failing)
    /\ In PSlug failing
    /\ failsWith ValidationError (Event_create Date_parse env events a).
Proof.
  intro F. destruct (validate_needs_slug a F) as (ps & V & I).
  exists ps. unfold Event_create. rewrite V. split; [reflexivity|].
  split; [exact I|]. exists (SchemaValidation ps). split; reflexivity.
Qed.

Lemma perform_sound db op :
  soundDatabase Date_parse db -> soundDatabase Date_parse (perform Date_parse db op).
Proof.
  intros [C B]. destruct op as [env attrs|env attrs]; simpl.
  - destruct (Event_create Date_parse env (eventsOf db) attrs) as [x|[events' d]] eqn:E;
      [now split|].
    split; simpl.
    + exact (created_more Date_parse env _ attrs events' d C E).
    + apply Event_create_wellFormed in E as (-> & _).
      eapply Forall_impl; [|exact B].
      intros b (S & N & V1 & V2). split; [now apply eventStored_more|auto].
  - destruct (Booking_create env (eventsOf db) (bookingsOf db) attrs) as [x|[bookings' b]] eqn:E;
      [now split|].
    split; simpl; [exact C|].
    rewrite Booking_create_cases in E.
    destruct (test schemaEmailRegex (toLowerCase (trim (email attrs)))) eqn:V;
      cbn [negb] in E; [|discriminate].
    destruct (answers env); cbn [negb] in E; [|discriminate].
    destruct (existsb (fun d => (fst d =? eventId attrs)%N) (eventsOf db)) eqn:X;
      cbn [negb] in E; [|discriminate].
    injection E as <- <-. apply Forall_app. split; [exact B|].
    constructor; [|constructor].
    split; [now apply Event_exists_spec|]. cbn [email eventId].
    split; [apply normalize_again|]. split; [exact V|].
    now apply PatternFacts.schemaEmail_simple.
Qed.

(** X10.  Whatever creations of Events and of Bookings are attempted, in
    whatever order and whether they succeed or fail, every stored Booking
    refers to a stored Event and holds an email that is in its trimmed
    lowercase form and matches the pattern of the schema and the pattern of
    the hook. *)
Theorem database_sound (ops : list Operation) :
  let db := performAll Date_parse ops (mkDatabase [] []) in
  created Date_parse (eventsOf db)
  /\ Forall (bookingSound (eventsOf db)) (bookingsOf db).
Proof.
  assert (G : forall ops db, soundDatabase Date_parse db ->
              soundDatabase Date_parse (performAll Date_parse ops db)).
  { induction ops0 as [|op l IH]; intros db H; [exact H|].
    simpl. apply IH. now apply perform_sound. }
  apply G. split; constructor.
Qed.

End MoreStoreFacts.

(** ** More about the Booking model *)

(** X11.  Nothing keeps a Booking from being stored twice: a creation that
    has succeeded succeeds again, with the same attributes or with the
    attributes it has stored, and the collection holds the Booking once
    more. *)
Theorem booking_repeat (env : Env) (events : Events) (bookings bookings' : Bookings)
    (a b : BookingAttrs) :
  Booking_create env events bookings a = inr (bookings', b) ->
  Booking_create env events bookings' a = inr (bookings ++ [b; b], b)
  /\ Booking_create env events bookings' b = inr (bookings ++ [b; b], b).
Proof.
  rewrite !Booking_create_cases.
  destruct (test schemaEmailRegex (toLowerCase (trim (email a)))) eqn:V;
    cbn [negb]; [|discriminate].
  destruct (answers env); cbn [negb]; [|discriminate].
  destruct (existsb (fun d => (fst d =? eventId a)%N) events) eqn:X;
    cbn [negb]; [|discriminate].
  intro H. injection H as <- <-. cbn [email eventId].
  rewrite normalize_again, V, X. cbn [negb].
  rewrite <- app_assoc. split; reflexivity.
Qed.

(** X12.  The creation of a Booking never ends with the error of the email
    test of the hook: an email that the hook would refuse has been refused
    by the validator of the schema before. *)
Theorem booking_hook_email_unreached (env : Env) (events : Events) (bookings : Bookings)
    (a : BookingAttrs) :
  Booking_create env events bookings a <> inl InvalidEmail
  /\ (test emailRegex (toLowerCase (trim (email a))) = false ->
        Booking_create env events bookings a = inl (SchemaValidation [PEmail])).
Proof.
  rewrite Booking_create_cases. split.
  - destruct (test schemaEmailRegex _), (answers env),
      (existsb (fun d => (fst d =? eventId a)%N) events); discriminate.
  - intro H. destruct (test schemaEmailRegex _) eqn:V; [|reflexivity].
    apply PatternFacts.schemaEmail_simple in V. congruence.
Qed.

(** ** More about the route handlers *)

Lemma slug_shaped_valid n :
  n <> [] -> allOf slugChar n -> normalizeAndValidateSlug (Some n) = Some n.
Proof.
  intros N A. apply normalizeAndValidateSlug_spec.
  assert (E : toLowerCase (trim n) = n).
  { rewrite trim_id.
    - exact (toLowerCase_id _ _ A slugChar_lower).
    - exact (allOf_startsWith _ _ _ A slugChar_not_space).
    - exact (allOf_startsWith _ _ _ (allOf_rev _ _ A) slugChar_not_space). }
  split; [now rewrite E|]. split; [exact N|]. now apply PatternFacts.slugPattern_spec.
Qed.

(** X13.  The normalization of the route is idempotent, it does not see the
    case of the parameter nor the white space around it, and it accepts
    every slug that [slugify] makes and that is not empty, as it is. *)
Theorem route_slug_normal :
  (forall param,
      normalizeAndValidateSlug (normalizeAndValidateSlug param)
      = normalizeAndValidateSlug param)
  /\ (forall raw,
        normalizeAndValidateSlug (Some (toLowerCase raw)) = normalizeAndValidateSlug (Some raw)
        /\ normalizeAndValidateSlug (Some (trim raw)) = normalizeAndValidateSlug (Some raw))
  /\ (forall value, slugify value <> [] ->
        normalizeAndValidateSlug (Some (slugify value)) = Some (slugify value)).
Proof.
  split; [|split].
  - intros [raw|]; [|reflexivity].
    destruct (normalizeAndValidateSlug (Some raw)) as [n|] eqn:E; [|reflexivity].
    apply normalizeAndValidateSlug_spec in E as (_ & N & T).
    apply PatternFacts.slugPattern_spec in T as [_ A]. now apply slug_shaped_valid.
  - intro raw. unfold normalizeAndValidateSlug. split.
    + now rewrite <- trim_toLowerCase, toLowerCase_idem, trim_toLowerCase.
    + now rewrite trim_idem.
  - intros value N. apply slug_shaped_valid; [exact N|apply slugify_shape].
Qed.

Lemma GET_status env events param :
  status (GET env events param) = 200%N
  \/ status (GET env events param) = 404%N
  \/ status (GET env events param) = 500%N.
Proof.
  rewrite GET_cases.
  destruct (connects env), (missingOrBlank param), (answers env); cbn [negb]; auto;
    destruct (find _ events); auto.
Qed.

Lemma GET_event env events param message d st :
  GET env events param = json (BEvent message d) st ->
  connects env = true /\ answers env = true
  /\ message = lit "API fetched successfully" /\ st = 200%N
  /\ missingOrBlank param = false
  /\ find (hasSlug (normalizeAndValidateSlug param)) events = Some d.
Proof.
  rewrite GET_cases.
  destruct (connects env); cbn [negb]; [|discriminate].
  destruct (missingOrBlank param); [discriminate|].
  destruct (answers env); cbn [negb]; [|discriminate].
  destruct (find _ events) as [d'|]; [|discriminate].
  intro H. injection H as <- <- <-. auto 10.
Qed.

Lemma GET_ok env events param :
  status (GET env events param) = 200%N ->
  exists d, GET env events param = json (BEvent (lit "API fetched successfully") d) 200.
Proof.
  rewrite GET_cases.
  destruct (connects env); cbn [negb]; [|discriminate].
  destruct (missingOrBlank param); [discriminate|].
  destruct (answers env); cbn [negb]; [|discriminate].
  destruct (find _ events) as [d'|]; [eauto|discriminate].
Qed.

Lemma GET_never_empty env events param d message st :
  slug (snd d) = Some [] ->
  GET env events param <> json (BEvent message d) st.
Proof.
  intros Sl E.
  destruct (GET_event env events param _ _ _ E) as (_ & _ & _ & _ & _ & Fd).
  apply find_some in Fd as [_ S]. apply hasSlug_spec in S. rewrite Sl in S.
  destruct param as [raw|]; [|discriminate].
  symmetry in S. apply normalizeAndValidateSlug_spec in S as (_ & N & _). congruence.
Qed.

(** X14.  [GET] answers 200, 404 or 500.  When it answers 200, the database
    is connected and answers, and the body holds a stored Event whose slug is
    the normalized parameter, the first one in the collection; with every
    stored Event carrying a slug, the parameter is then of the pattern.  An
    Event whose slug is empty is in no response. *)
Theorem GET_found (env : Env) (events : Events) (param : option str) :
  (status (GET env events param) = 200%N
   \/ status (GET env events param) = 404%N
   \/ status (GET env events param) = 500%N)
  /\ (status (GET env events param) = 200%N ->
        connects env = true /\ answers env = true
        /\ exists d,
             GET env events param = json (BEvent (lit "API fetched successfully") d) 200
             /\ In d events
             /\ slug (snd d) = normalizeAndValidateSlug param
             /\ find (hasSlug (normalizeAndValidateSlug param)) events = Some d)
  /\ (slugsPresent events -> status (GET env events param) = 200%N ->
        exists raw n,
          param = Some raw /\ normalizeAndValidateSlug param = Some n
          /\ n = toLowerCase (trim raw) /\ n <> [] /\ allOf slugChar n)
  /\ (forall d message st,
        slug (snd d) = Some [] ->
        GET env events param <> json (BEvent message d) st).
Proof.
  split; [apply GET_status|]. split; [|split].
  - intro H. destruct (GET_ok env events param H) as (d & E).
    destruct (GET_event env events param _ _ _ E) as (C & A & _ & _ & _ & Fd).
    split; [exact C|]. split; [exact A|]. exists d. split; [exact E|].
    pose proof (find_some _ _ Fd) as [I S]. apply hasSlug_spec in S. auto.
  - intros P H. destruct (GET_ok env events param H) as (d & E).
    destruct (GET_event env events param _ _ _ E) as (_ & _ & _ & _ & _ & Fd).
    apply find_some in Fd as [I S]. apply hasSlug_spec in S.
    unfold slugsPresent in P. rewrite Forall_forall in P. specialize (P d I).
    destruct param as [raw|]; [|simpl in S; congruence].
    destruct (normalizeAndValidateSlug (Some raw)) as [n|] eqn:N; [|congruence].
    exists raw, n. split; [reflexivity|]. split; [reflexivity|].
    apply normalizeAndValidateSlug_spec in N as (-> & Ne & T).
    apply PatternFacts.slugPattern_spec in T as [_ A]. auto.
  - apply GET_never_empty.
Qed.

Lemma find_last {A : Type} (f : A -> bool) (l : list A) (x : A) :
  existsb f l = false -> f x = true -> find f (l ++ [x]) = Some x.
Proof.
  intros N T. induction l as [|y l IH]; simpl in *; [now rewrite T|].
  apply orb_false_iff in N as [Ny N]. rewrite Ny. now apply IH.
Qed.

(** X15.  In a collection built by creations, a parameter that is of the
    pattern of the route but not of the shape of a generated slug (it starts
    or ends with a dash, or has two dashes side by side) finds no Event. *)
Theorem GET_unshaped (Date_parse : str -> option Z) (env : Env) (events : Events)
    (param : option str) (n : str) :
  created Date_parse events ->
  normalizeAndValidateSlug param = Some n ->
  startsWith isDash n = true \/ endsWith isDash n = true \/ hasDouble isDash n = true ->
  status (GET env events param) <> 200%N
  /\ (connects env = true -> answers env = true -> status (GET env events param) = 404%N).
Proof.
  intros C N U.
  assert (X : status (GET env events param) <> 200%N).
  { intro H. destruct (GET_ok env events param H) as (d & E).
    destruct (GET_event env events param _ _ _ E) as (_ & _ & _ & _ & _ & Fd).
    apply find_some in Fd as [I S]. apply hasSlug_spec in S.
    pose proof (created_wellFormed Date_parse events C) as W.
    rewrite Forall_forall in W. destruct (W d I) as (_ & _ & _ & _ & _ & _ & ti & _ & Sl).
    rewrite Sl, N in S. injection S as <-.
    destruct (slugify_shape ti) as (_ & D & St & En).
    destruct U as [U|[U|U]]; congruence. }
  split; [exact X|]. intros Co An.
  destruct (GET_status env events param) as [H|[H|H]]; [contradiction|exact H|].
  exfalso. revert H. rewrite GET_cases, Co, An. cbn [negb].
  destruct (missingOrBlank param); [discriminate|].
  destruct (find _ events); discriminate.
Qed.

(** X16.  The page of an Event shows the Event exactly when the route has
    answered 200, and the page of a missing Event on every other answer,
    the answers 500 among them. *)
Theorem page_follows_status (env : Env) (events : Events) (param : option str) :
  (EventDetailsPage (GET env events param) = EventSection
   <-> status (GET env events param) = 200%N)
  /\ (EventDetailsPage (GET env events param) = NotFoundPage
      <-> status (GET env events param) = 404%N \/ status (GET env events param) = 500%N).
Proof.
  rewrite GET_cases.
  destruct (connects env), (missingOrBlank param), (answers env); cbn [negb];
    try (destruct (find _ events)); simpl; split; split; intro H;
    try discriminate; try reflexivity; auto;
    destruct H as [H|H]; discriminate.
Qed.



Section MoreHandlerFacts.

Variable Date_parse : str -> option Z.

(** X17.  [POST] answers 201 or 500 and changes the collection only when it
    answers 201: one document is added at the end, the one of the body, with
    an identifier that no stored document has, and it is as the hook leaves
    a document.  On 500 the collection is as before.  Either way a
    collection built by creations stays one. *)
Theorem POST_effect (env : Env) (events events' : Events) (req : NextRequest)
    (response : NextResponse) :
  POST Date_parse env events req = (response, events') ->
  ((status response = 201%N
    /\ exists d,
         body response = BEvent (lit "Event created successfully") d
         /\ events' = events ++ [d]
         /\ ~ In (fst d) (map fst events)
         /\ ~ In (slug (snd d)) (map (fun x => slug (snd x)) events)
         /\ wellFormed (snd d))
   \/ (status response = 500%N /\ events' = events
       /\ exists e, body response = BFailure (lit "Event Creation Failed") e))
  /\ (created Date_parse events -> created Date_parse events').
Proof.
  rewrite POST_cases. destruct (connects env); cbn [negb].
  - destruct (formData req) as [e|form].
    + intro H. injection H as <- <-. split; [right; simpl; eauto|auto].
    + destruct (Event_create Date_parse env events (castEvent form)) as [e|[ev d]] eqn:E.
      * intro H. injection H as <- <-. split; [right; simpl; eauto|auto].
      * intro H. injection H as <- <-. split.
        -- left. simpl. split; [reflexivity|].
           exists d. split; [reflexivity|].
           apply Event_create_wellFormed in E as (-> & Id & W & Sl).
           split; [reflexivity|]. split; [|split; [exact Sl|exact W]].
           intro I. apply in_map_iff in I as (x & Ex & I).
           apply freshId_above in I. unfold EventDocument, ObjectId in *.
           rewrite Ex, Id in I. exact (N.lt_irrefl _ I).
        -- intro C. exact (created_more Date_parse env events _ ev d C E).
  - intro H. injection H as <- <-. split; [right; simpl; eauto|auto].
Qed.

(** X18.  An Event that [POST] has created is found by [GET] under its slug,
    however the parameter is cased and whatever white space is around it,
    provided the slug is not empty; an Event created with the empty slug is
    in no response of [GET]. *)
Theorem POST_then_GET (env env' : Env) (events events' : Events) (req : NextRequest)
    (response : NextResponse) (message : str) (d : EventDocument) :
  POST Date_parse env events req = (response, events') ->
  body response = BEvent message d ->
  exists s,
    slug (snd d) = Some s
    /\ (s <> [] -> connects env' = true -> answers env' = true ->
        forall raw, toLowerCase (trim raw) = s ->
          GET env' events' (Some raw)
          = json (BEvent (lit "API fetched successfully") d) 200)
    /\ (s = [] -> forall param message' st,
          GET env' events' param <> json (BEvent message' d) st).
Proof.
  rewrite POST_cases. destruct (connects env); cbn [negb];
    [|intro H; injection H as <- <-; discriminate].
  destruct (formData req) as [e|form]; [intro H; injection H as <- <-; discriminate|].
  destruct (Event_create Date_parse env events (castEvent form)) as [e|[ev d']] eqn:E;
    [intro H; injection H as <- <-; discriminate|].
  intros H B. injection H as <- <-. simpl in B. injection B as _ <-.
  pose proof E as E0.
  apply Event_create_wellFormed in E as (-> & _ & W & Fr).
  destruct W as (_ & _ & _ & _ & _ & _ & ti & _ & Sl).
  exists (slugify ti). split; [exact Sl|]. split.
  - intros N C A raw R.
    assert (V : normalizeAndValidateSlug (Some raw) = Some (slugify ti)).
    { apply normalizeAndValidateSlug_spec. split; [now rewrite R|]. split; [exact N|].
      apply PatternFacts.slugPattern_spec. split; [exact N|apply slugify_shape]. }
    rewrite GET_cases, C, A. cbn [negb].
    destruct (missingOrBlank (Some raw)) eqn:M.
    { apply missingOrBlank_invalid in M. congruence. }
    rewrite V, find_last; [reflexivity| |now apply hasSlug_spec].
    rewrite <- Sl. now apply free_spec.
  - intros Em param message' st. apply GET_never_empty. now rewrite Sl, Em.
Qed.



(** X20.  A form without an entry named slug is never answered with 201:
    with the database connected the response is 500, with the error of the
    validators of the schema, which names the path of the slug, and the
    collection is as before. *)
Theorem POST_needs_slug (env : Env) (events : Events) (req : NextRequest)
    (form : FormData) :
  formData req = inr form -> prop "slug" form = None ->
  status (fst (POST Date_parse env events req)) = 500%N
  /\ snd (POST Date_parse env events req) = events
  /\ (connects env = true ->
      exists failing,
        In PSlug failing
        /\ POST Date_parse env events req
           = (json (BFailure (lit "Event Creation Failed") (SchemaValidation failing)) 500,
              events)).
Proof.
  intros F S.
  destruct (validate_needs_slug (castEvent form)) as (ps & V & I).
  { simpl. now rewrite S. }
  assert (E : Event_create Date_parse env events (castEvent form)
              = inl (SchemaValidation ps)).
  { unfold Event_create. now rewrite V. }
  rewrite POST_cases, F, E. destruct (connects env); cbn [negb]; simpl.
  - split; [reflexivity|]. split; [reflexivity|]. intros _. exists ps. auto.
  - split; [reflexivity|]. split; [reflexivity|]. discriminate.
Qed.

End MoreHandlerFacts.

(** ** [lib/mongodb]: what the cache guarantees *)

Lemma act_uri a p : MONGODB_URI (act a p) = MONGODB_URI p.
Proof.
  destruct a as [k|o|k]; simpl.
  - unfold call. destruct (conn (cached p)); [reflexivity|].
    destruct (promise (cached p)); [reflexivity|].
    now destruct (falsy (MONGODB_URI p)).
  - unfold settle. now destruct (promise (cached p)) as [[| |]|].
  - unfold resume. destruct (existsb (Nat.eqb k) (waiting p)); [|reflexivity].
    now destruct (promise (cached p)) as [[| |]|].
Qed.

Lemma act_attempts a p : (attempts p <= attempts (act a p))%nat.
Proof.
  destruct a as [k|o|k]; simpl.
  - unfold call. destruct (conn (cached p)); [simpl; lia|].
    destruct (promise (cached p)); [simpl; lia|].
    destruct (falsy (MONGODB_URI p)); simpl; lia.
  - unfold settle. destruct (promise (cached p)) as [[| |]|]; simpl; lia.
  - unfold resume. destruct (existsb (Nat.eqb k) (waiting p)); [|lia].
    destruct (promise (cached p)) as [[| |]|]; simpl; lia.
Qed.

Lemma act_returned a p x : In x (returned p) -> In x (returned (act a p)).
Proof.
  intro I. destruct a as [k|o|k]; simpl.
  - unfold call. destruct (conn (cached p)); [now right|].
    destruct (promise (cached p)); [exact I|].
    destruct (falsy (MONGODB_URI p)); simpl; auto.
  - unfold settle. now destruct (promise (cached p)) as [[| |]|].
  - unfold resume. destruct (existsb (Nat.eqb k) (waiting p)); [|exact I].
    destruct (promise (cached p)) as [[| |]|]; simpl; auto.
Qed.

(** Once there is a connection or a promise in the cache, there is one for
    good, and [mongoose.connect] is not called. *)
Lemma act_settled a p :
  (conn (cached p) <> None \/ promise (cached p) <> None) ->
  (conn (cached (act a p)) <> None \/ promise (cached (act a p)) <> None)
  /\ attempts (act a p) = attempts p.
Proof.
  destruct p as [u [c pr] n w r]. simpl. intro H.
  destruct a as [k|o|k]; simpl.
  - unfold call; simpl. destruct c as [m|]; [simpl; auto|].
    destruct pr as [st|]; [simpl; auto|]. destruct H; congruence.
  - unfold settle; simpl. destruct pr as [[| |]|]; simpl; split; auto;
      right; discriminate.
  - unfold resume; simpl. destruct (existsb (Nat.eqb k) w); [|auto].
    destruct pr as [[| |]|]; simpl; split; auto; right; discriminate.
Qed.

Lemma act_coherent a p :
  falsy (MONGODB_URI p) = false -> coherent p -> coherent (act a p).
Proof.
  intros U H. pose proof H as (A & Z & C & W & R).
  destruct p as [u [c pr] n w r]. simpl in A, Z, C, W, R, U.
  destruct a as [k|o|k]; simpl.
  - unfold call; simpl. destruct c as [m|].
    + pose proof (C m eq_refl) as ->.
      repeat split; simpl; auto; try discriminate.
      * intros E. destruct Z as [_ Z]. now apply Z in E.
      * intros k' o' [E|I]; [injection E as <- <-; reflexivity|now apply R in I].
    + destruct pr as [st|].
      * repeat split; simpl; auto; try discriminate.
        intros E. destruct Z as [_ Z]. now apply Z in E.
      * rewrite U. destruct Z as [Z _]. rewrite (Z eq_refl).
        repeat split; simpl; auto; try discriminate.
        intros k' o' I. apply R in I. now destruct o'.
  - unfold settle; simpl. destruct pr as [[| |]|]; try exact H.
    repeat split; simpl; auto; try discriminate.
    + intros E. destruct Z as [_ Z]. now apply Z in E.
    + intros m E. apply C in E. discriminate.
    + intros k' o' I. apply R in I. now destruct o'.
  - unfold resume; simpl. destruct (existsb (Nat.eqb k) w); [|exact H].
    destruct pr as [[|m|e]|]; try exact H.
    + repeat split; simpl; auto; try discriminate.
      * intros E. destruct Z as [_ Z]. now apply Z in E.
      * now intros m' [= ->].
      * intros k' o' [E|I]; [injection E as <- <-; reflexivity|now apply R in I].
    + repeat split; simpl; auto; try discriminate.
      * intros E. destruct Z as [_ Z]. now apply Z in E.
      * intros k' o' [E|I]; [injection E as <- <-; reflexivity|now apply R in I].
Qed.

Lemma run_app l l' p : run (l ++ l') p = run l' (run l p).
Proof. apply fold_left_app. Qed.

Lemma run_uri l p : MONGODB_URI (run l p) = MONGODB_URI p.
Proof.
  revert p. induction l as [|a l IH]; intro p; [reflexivity|].
  simpl. change (MONGODB_URI (run l (act a p)) = MONGODB_URI p).
  now rewrite IH, act_uri.
Qed.

Lemma run_attempts l p : (attempts p <= attempts (run l p))%nat.
Proof.
  revert p. induction l as [|a l IH]; intro p; [simpl; lia|].
  change (attempts p <= attempts (run l (act a p)))%nat.
  pose proof (IH (act a p)). pose proof (act_attempts a p). lia.
Qed.

Lemma run_returned l p x : In x (returned p) -> In x (returned (run l p)).
Proof.
  revert p. induction l as [|a l IH]; intros p I; [exact I|].
  change (In x (returned (run l (act a p)))). now apply IH, act_returned.
Qed.

Lemma run_coherent l p :
  falsy (MONGODB_URI p) = false -> coherent p -> coherent (run l p).
Proof.
  revert p. induction l as [|a l IH]; intros p U C; [exact C|].
  change (coherent (run l (act a p))). apply IH.
  - now rewrite act_uri.
  - now apply act_coherent.
Qed.

Lemma run_settled l p :
  (conn (cached p) <> None \/ promise (cached p) <> None) ->
  attempts (run l p) = attempts p.
Proof.
  revert p. induction l as [|a l IH]; intros p H; [reflexivity|].
  change (attempts (run l (act a p)) = attempts p).
  destruct (act_settled a p H) as (H' & E). now rewrite IH.
Qed.

Lemma run_without_calls l p :
  (forall k, ~ In (Call k) l) -> attempts (run l p) = attempts p.
Proof.
  revert p. induction l as [|a l IH]; intros p H; [reflexivity|].
  change (attempts (run l (act a p)) = attempts p).
  rewrite IH; [|intros k I; apply (H k); now right].
  destruct a as [k|o|k]; simpl.
  - destruct (H k). now left.
  - unfold settle. now destruct (promise (cached p)) as [[| |]|].
  - unfold resume. destruct (existsb (Nat.eqb k) (waiting p)); [|reflexivity].
    now destruct (promise (cached p)) as [[| |]|].
Qed.

Lemma loadModule_fresh uri p0 :
  loadModule uri None = Some p0 ->
  falsy (MONGODB_URI p0) = false /\ coherent p0 /\ attempts p0 = 0%nat.
Proof.
  unfold loadModule. destruct (falsy uri) eqn:F; [discriminate|].
  intros [= <-]. simpl. split; [exact F|]. split; [|reflexivity].
  repeat split; simpl; auto; try discriminate. intros k o [].
Qed.

Lemma call_attempts k p :
  coherent p -> attempts (call k p) = 1%nat.
Proof.
  intros (A & Z & C & _). unfold call.
  destruct (conn (cached p)) as [m|] eqn:Cn.
  - simpl. specialize (C m eq_refl). rename C into Cn'. clear Cn. rename Cn' into Cn.
    destruct (attempts p) as [|[|n]]; [|reflexivity|lia].
    destruct Z as [_ Z]. specialize (Z eq_refl). congruence.
  - destruct (promise (cached p)) as [st|] eqn:P.
    + simpl. destruct (attempts p) as [|[|n]]; [|reflexivity|lia].
      destruct Z as [_ Z]. specialize (Z eq_refl). congruence.
    + destruct Z as [Z _]. rewrite (Z eq_refl).
      now destruct (falsy (MONGODB_URI p)).
Qed.

(** X21.  In a module loaded without a cache, however calls of
    [connectToDatabase], the settling of the promise and the resumptions
    follow one another, [mongoose.connect] is called once at most, and once
    exactly as soon as there has been a call. *)
Theorem connect_once (uri : option str) (p0 : Process) (actions : list Action) :
  loadModule uri None = Some p0 ->
  (attempts (run actions p0) <= 1)%nat
  /\ (attempts (run actions p0) = 1%nat <-> exists k, In (Call k) actions).
Proof.
  intro L. apply loadModule_fresh in L as (U & C & A0).
  pose proof (run_coherent actions p0 U C) as (A & _).
  split; [exact A|]. split.
  - intro E.
    assert (D : {exists k, In (Call k) actions} + {forall k, ~ In (Call k) actions}).
    { clear. induction actions as [|a l [IH|IH]].
      - right. intros k [].
      - left. destruct IH as (k & I). exists k. now right.
      - destruct a as [k|o|k].
        + left. exists k. now left.
        + right. intros k [E|I]; [discriminate|exact (IH k I)].
        + right. intros k' [E|I]; [discriminate|exact (IH k' I)]. }
    destruct D as [D|D]; [exact D|].
    rewrite (run_without_calls actions p0 D) in E. congruence.
  - intros (k & I). apply in_split in I as (l1 & l2 & ->).
    rewrite run_app. change (run (Call k :: l2) (run l1 p0))
      with (run l2 (call k (run l1 p0))).
    pose proof (run_coherent l1 p0 U C) as C1.
    pose proof (call_attempts k _ C1) as E.
    pose proof (run_attempts l2 (call k (run l1 p0))) as M.
    rewrite run_app in A.
    change (run (Call k :: l2) (run l1 p0)) with (run l2 (call k (run l1 p0))) in A.
    lia.
Qed.

(** X22.  In a module loaded without a cache all the calls that have ended
    have ended the same way, with the connection or with the rejection of
    the one promise; a rejection is for good: every call that ends later
    ends with the same error, and there is no new attempt to connect. *)
Theorem outcomes_agree (uri : option str) (p0 : Process) (actions : list Action) :
  loadModule uri None = Some p0 ->
  (forall k k' o o',
      In (k, o) (returned (run actions p0)) ->
      In (k', o') (returned (run actions p0)) -> o = o')
  /\ (forall k e,
        In (k, Failed e) (returned (run actions p0)) ->
        forall more,
          attempts (run (actions ++ more) p0) = attempts (run actions p0)
          /\ forall k' o, In (k', o) (returned (run (actions ++ more) p0)) ->
                          o = Failed e).
Proof.
  intro L. apply loadModule_fresh in L as (U & C & A0).
  assert (G : forall l k k' o o',
             In (k, o) (returned (run l p0)) ->
             In (k', o') (returned (run l p0)) -> o = o').
  { intros l k k' o o' I I'.
    pose proof (run_coherent l p0 U C) as (_ & _ & _ & _ & R).
    apply R in I. apply R in I'. destruct o, o'; try congruence; contradiction. }
  split; [apply G|].
  intros k e I more. split.
  - rewrite run_app. apply run_settled. right.
    pose proof (run_coherent actions p0 U C) as (_ & _ & _ & _ & R).
    apply R in I. rewrite I. discriminate.
  - intros k' o I'. apply (G (actions ++ more) k' k); [exact I'|].
    rewrite run_app. now apply run_returned.
Qed.



(** X25.  A module that is loaded again and finds a cache with a connection
    or a promise in it never calls [mongoose.connect], and a call that finds
    the connection [m] returns it. *)
Theorem reload_reuses (uri : option str) (c : MongooseCache) (p1 : Process)
    (actions : list Action) :
  loadModule uri (Some c) = Some p1 ->
  conn c <> None \/ promise c <> None ->
  cached p1 = c
  /\ attempts (run actions p1) = 0%nat
  /\ (forall m k, conn c = Some m -> In (k, Connected m) (returned (call k p1))).
Proof.
  unfold loadModule. destruct (falsy uri); [discriminate|].
  intros [= <-] H. split; [reflexivity|]. split.
  - now rewrite run_settled.
  - intros m k E. unfold call. simpl. rewrite E. now left.
Qed.

(** ** Examples *)

Local Open Scope Z_scope.

Example toISOString_epoch : toISOString 0 = lit "1970-01-01T00:00:00.000Z".
Proof. vm_compute. reflexivity. Qed.

Example toISOString_before_epoch : toISOString (-1) = lit "1969-12-31T23:59:59.999Z".
Proof. vm_compute. reflexivity. Qed.

Example toISOString_leap_day :
  toISOString 1709164800123 = lit "2024-02-29T00:00:00.123Z".
Proof. vm_compute. reflexivity. Qed.

Example toISOString_last_instant :
  toISOString 8640000000000000 = lit "+275760-09-13T00:00:00.000Z".
Proof. vm_compute. reflexivity. Qed.

Local Close Scope Z_scope.

Example slugify_dashes : slugify (lit " -- Rust & Go -- 2025 ") = lit "rust-go-2025".
Proof. vm_compute. reflexivity. Qed.

(** The document that the creation of [sampleEvent] stores. *)
Example create_sample :
  exists d,
    Event_create parseIsoDate online [] sampleEvent = inr ([d], d)
    /\ title (snd d) = Some (lit "Hello, World!")
    /\ slug (snd d) = Some (lit "hello-world")
    /\ date (snd d) = Some (lit "2025-11-03T00:00:00.000Z")
    /\ time (snd d) = Some (lit "09:30").
Proof. eexists. vm_compute. repeat split. Qed.

(** The validators of the schema run before the hook that makes the slug:
    attributes without a slug are rejected. *)
Example create_without_slug :
  Event_create parseIsoDate online [] (setSlug None sampleEvent)
  = inl (SchemaValidation [PSlug]).
Proof. vm_compute. reflexivity. Qed.

Example POST_sample :
  exists d,
    POST parseIsoDate online [] (mkRequest (inr sampleForm))
    = (json (BEvent (lit "Event created successfully") d) 201, [d])
    /\ slug (snd d) = Some (lit "hello-world")
    /\ agenda (snd d) = Some [Some (lit "Keynote")].
Proof. eexists. vm_compute. repeat split. Qed.

Example GET_unknown :
  status (GET online sampleEvents (Some (lit "no-such-event"))) = 404%N.
Proof. vm_compute. reflexivity. Qed.

Example GET_invalid :
  status (GET online sampleEvents (Some (lit "Hello, World!"))) = 404%N.
Proof. vm_compute. reflexivity. Qed.

Example GET_missing : status (GET online sampleEvents None) = 404%N.
Proof. vm_compute. reflexivity. Qed.

Example GET_offline :
  GET (mkEnv false true) sampleEvents (Some (lit "hello-world"))
  = jsonError (lit "Failed to fetch event. Please try again later.") 500.
Proof. vm_compute. reflexivity. Qed.

(** ** The statements at the examples *)

Lemma sampleEvents_stored : eventStored sampleEvents 1%N.
Proof. apply Event_exists_spec. vm_compute. reflexivity. Defined.

Lemma sampleEvents_without_7 : ~ eventStored sampleEvents 7%N.
Proof. intro H. apply Event_exists_spec in H. vm_compute in H. discriminate H. Defined.



Lemma sample_saves :
  exists doc, preSave parseIsoDate true (applySetters sampleEvent) = inr doc.
Proof. eexists. vm_compute. reflexivity. Defined.

(** A Booking for the stored Event is stored, with its email normalized; a
    Booking for an identifier that no Event has is not. *)
Lemma booking_reference_witness :
  (test schemaEmailRegex (toLowerCase (trim (lit " Ann@Example.COM "))) = true
   /\ answers online = true
   /\ eventStored sampleEvents 1%N
   /\ Booking_create online sampleEvents [] (mkBooking 1%N (lit " Ann@Example.COM "))
      = inr ([mkBooking 1%N (lit "ann@example.com")], mkBooking 1%N (lit "ann@example.com")))
  /\ (~ eventStored sampleEvents 7%N
      /\ Booking_create online sampleEvents [] (mkBooking 7%N (lit " Ann@Example.COM "))
         = inl EventMissing).
Proof.
  split.
  - split; [vm_compute; reflexivity|]. split; [reflexivity|].
    split; [exact sampleEvents_stored|].
    destruct (booking_reference online sampleEvents []
                (mkBooking 1%N (lit " Ann@Example.COM "))) as (_ & _ & _ & H & _).
    destruct (H eq_refl eq_refl) as (_ & _ & K).
    exact (K sampleEvents_stored).
  - split; [exact sampleEvents_without_7|].
    destruct (booking_reference online sampleEvents []
                (mkBooking 7%N (lit " Ann@Example.COM "))) as (_ & _ & _ & H & _).
    destruct (H eq_refl eq_refl) as (K & _).
    apply K. exact sampleEvents_without_7.
Defined.

Lemma booking_email_witness :
  answers online = true
  /\ eventStored sampleEvents 1%N
  /\ Booking_create online sampleEvents [] (mkBooking 1%N (lit "A@B.COM"))
     = inr ([mkBooking 1%N (lit "a@b.com")], mkBooking 1%N (lit "a@b.com")).
Proof.
  split; [reflexivity|]. split; [exact sampleEvents_stored|].
  destruct (booking_email online sampleEvents [] (mkBooking 1%N (lit "A@B.COM")))
    as (_ & _ & _ & _ & H).
  exact (H eq_refl sampleEvents_stored eq_refl).
Defined.

(** The email a@b.c matches the pattern of the hook, and the creation of a
    Booking with it, for a stored Event, fails with an error of validation:
    the validator of the schema wants two letters after the last dot. *)
Lemma booking_email_counterexample :
  test emailRegex (toLowerCase (trim (lit "a@b.c"))) = true
  /\ eventStored sampleEvents 1%N
  /\ Booking_create online sampleEvents [] (mkBooking 1%N (lit "a@b.c"))
     = inl (SchemaValidation [PEmail])
  /\ kindOf (SchemaValidation [PEmail]) = ValidationError.
Proof.
  split; [vm_compute; reflexivity|]. split; [exact sampleEvents_stored|].
  split; [vm_compute; reflexivity|reflexivity].
Qed.


(** A body that is not a form is answered with 500; the form of
    [sampleEvent] is answered with 201. *)
Lemma POST_responses_witness :
  (formData (mkRequest (inl BodyNotForm)) = inl BodyNotForm
   /\ POST parseIsoDate online [] (mkRequest (inl BodyNotForm))
      = (json (BFailure (lit "Event Creation Failed") BodyNotForm) 500, []))
  /\ (exists events' d,
        connects online = true
        /\ formData (mkRequest (inr sampleForm)) = inr sampleForm
        /\ Event_create parseIsoDate online [] (castEvent sampleForm) = inr (events', d)
        /\ POST parseIsoDate online [] (mkRequest (inr sampleForm))
           = (json (BEvent (lit "Event created successfully") d) 201, events')).
Proof.
  split.
  - split; [reflexivity|].
    destruct (POST_responses parseIsoDate online [] (mkRequest (inl BodyNotForm)))
      as (H & _).
    exact (H BodyNotForm eq_refl).
  - destruct (Event_create parseIsoDate online [] (castEvent sampleForm))
      as [x|[events' d]] eqn:E; [vm_compute in E; discriminate E|].
    exists events', d. split; [reflexivity|]. split; [reflexivity|].
    split; [reflexivity|].
    destruct (POST_responses parseIsoDate online [] (mkRequest (inr sampleForm)))
      as (_ & _ & H & _).
    exact (H sampleForm events' d eq_refl eq_refl E).
Defined.

(** [sampleEvent] is created once; the second creation meets the unique
    index. *)
Lemma slug_uniqueness_witness :
  exists d,
    Event_create parseIsoDate online [] sampleEvent = inr (sampleEvents, d)
    /\ title sampleEvent = title sampleEvent
    /\ validate (applySetters sampleEvent) = inr (applySetters sampleEvent)
    /\ (exists doc, preSave parseIsoDate true (applySetters sampleEvent) = inr doc)
    /\ Event_create parseIsoDate online sampleEvents sampleEvent = inl DuplicateKey.
Proof.
  destruct (Event_create parseIsoDate online [] sampleEvent) as [x|[events d]] eqn:E;
    [discriminate E|].
  assert (Es : events = sampleEvents).
  { unfold sampleEvents. now rewrite E. }
  exists d. rewrite <- Es at 1.
  assert (V : validate (applySetters sampleEvent) = inr (applySetters sampleEvent))
    by (vm_compute; reflexivity).
  repeat (split; [assumption || reflexivity || exact sample_saves|]).
  destruct (slug_uniqueness parseIsoDate online []) as (_ & _ & H & _ & _).
  rewrite <- Es.
  destruct (H sampleEvent sampleEvent events d E eq_refl) as (_ & _ & K).
  exact (K V sample_saves).
Defined.

(** With the time 9:30 the creation of [sampleEvent] fails; the document
    that is saved keeps its time, trimmed. *)
Lemma time_validation_witness :
  (time (set Time (Some (lit "9:30")) sampleEvent) = Some (lit "9:30")
   /\ test timePattern (trim (lit "9:30")) = false
   /\ failsWith ValidationError
        (Event_create parseIsoDate online [] (set Time (Some (lit "9:30")) sampleEvent)))
  /\ (exists doc,
        preSave parseIsoDate true (applySetters sampleEvent) = inr doc
        /\ time doc = Some (lit "09:30")
        /\ preSave parseIsoDate true (set Time (Some (lit "9:30")) (applySetters sampleEvent))
           = inl InvalidTime).
Proof.
  split.
  - split; [reflexivity|]. split; [vm_compute; reflexivity|].
    destruct (time_validation parseIsoDate true online []
                (set Time (Some (lit "9:30")) sampleEvent)) as (H & _).
    apply (H (lit "9:30") eq_refl). vm_compute. reflexivity.
  - destruct sample_saves as (doc & S). exists doc. split; [exact S|].
    destruct (time_validation parseIsoDate true online [] (applySetters sampleEvent))
      as (_ & _ & _ & H3 & _ & H5 & _).
    split.
    + destruct (H3 doc S) as (t & Et & _ & ->).
      vm_compute in Et. injection Et as <-. vm_compute. reflexivity.
    + exact (proj1 (H5 doc S)).
Defined.


(** With an empty agenda the creation of [sampleEvent] fails. *)
Lemma lists_validation_witness :
  agenda (mkEvent (title sampleEvent) (slug sampleEvent) (description sampleEvent)
            (overview sampleEvent) (image sampleEvent) (venue sampleEvent)
            (location sampleEvent) (date sampleEvent) (time sampleEvent)
            (mode sampleEvent) (audience sampleEvent) (Some [])
            (organizer sampleEvent) (tags sampleEvent)) = Some []
  /\ failsWith ValidationError
       (Event_create parseIsoDate online []
          (mkEvent (title sampleEvent) (slug sampleEvent) (description sampleEvent)
             (overview sampleEvent) (image sampleEvent) (venue sampleEvent)
             (location sampleEvent) (date sampleEvent) (time sampleEvent)
             (mode sampleEvent) (audience sampleEvent) (Some [])
             (organizer sampleEvent) (tags sampleEvent))).
Proof.
  split; [reflexivity|].
  match goal with
  | |- failsWith _ (Event_create _ _ _ ?e) =>
      destruct (lists_validation parseIsoDate true online [] e)
        as (_ & _ & _ & _ & _ & _ & _ & _ & _ & H)
  end.
  exact (proj2 (H eq_refl)).
Defined.


Lemma slugify_idempotent_witness :
  test slugPattern (lit "--hello--world-") = true
  /\ slugify (slugify (lit "--hello--world-")) = slugify (lit "--hello--world-")
  /\ slugify (lit "hello-world") = lit "hello-world".
Proof.
  destruct slugify_idempotent as (_ & H2 & H3).
  split; [vm_compute; reflexivity|]. split.
  - apply H2. vm_compute. reflexivity.
  - apply H3; [repeat constructor|reflexivity|reflexivity|reflexivity].
Defined.

(** ** The further statements at the examples *)

Lemma sample_created :
  exists d, Event_create parseIsoDate online [] sampleEvent = inr (sampleEvents, d).
Proof.
  unfold sampleEvents.
  destruct (Event_create parseIsoDate online [] sampleEvent) as [x|[events d]] eqn:E;
    [discriminate E|].
  exists d. reflexivity.
Defined.

Lemma sampleEvents_created : created parseIsoDate sampleEvents.
Proof.
  destruct sample_created as (d & E).
  exact (created_more _ online [] sampleEvent _ d (created_empty _) E).
Defined.

Lemma slugify_insensitive_witness :
  toLowerCase (trim (lit " HELLO, world! ")) = toLowerCase (trim (lit "Hello, World!"))
  /\ slugify (lit " HELLO, world! ") = slugify (lit "Hello, World!").
Proof.
  destruct (slugify_insensitive (lit "Hello, World!")) as (_ & _ & H).
  split; [vm_compute; reflexivity|]. apply H. vm_compute. reflexivity.
Defined.

(** With a venue of white space the hook names the venue. *)
Lemma required_strings_witness :
  firstBlank (set Venue (Some (lit "  ")) sampleEvent) = Some Venue
  /\ preSave parseIsoDate true (set Venue (Some (lit "  ")) sampleEvent)
     = inl (FieldRequired Venue).
Proof.
  destruct (required_strings parseIsoDate true (set Venue (Some (lit "  ")) sampleEvent))
    as (H & _).
  split; [vm_compute; reflexivity|]. apply H. vm_compute. reflexivity.
Defined.

(** The slug draft of [sampleEvent] is replaced by the slug of its title. *)
Lemma slug_rule_witness :
  exists doc,
    preSave parseIsoDate true (applySetters sampleEvent) = inr doc
    /\ slug (applySetters sampleEvent) = Some (lit "draft")
    /\ slug doc = Some (lit "hello-world").
Proof.
  destruct sample_saves as (doc & S). exists doc. split; [exact S|].
  split; [vm_compute; reflexivity|].
  destruct (slug_rule parseIsoDate true _ doc S) as (ti & T & _ & _ & H & _).
  rewrite (H eq_refl). vm_compute in T. injection T as <-. vm_compute. reflexivity.
Defined.

(** The document of [sampleEvent] is saved again as it is. *)
Lemma resave_stable_witness :
  exists doc,
    preSave parseIsoInstant true (applySetters sampleEvent) = inr doc
    /\ preSave parseIsoInstant false doc = inr doc
    /\ preSave parseIsoInstant true doc = inr doc.
Proof.
  destruct (preSave parseIsoInstant true (applySetters sampleEvent)) as [x|doc] eqn:S;
    [discriminate S|].
  exists doc. split; [reflexivity|].
  assert (D : date doc = Some (lit "2025-11-03T00:00:00.000Z")).
  { vm_compute in S. injection S as <-. reflexivity. }
  destruct (resave_stable parseIsoInstant true _ doc S) as (H1 & H2).
  - intros s Es. rewrite D in Es. injection Es as <-.
    exists 1762128000000%Z. split; vm_compute; reflexivity.
  - split; [exact H1|exact (H2 eq_refl)].
Defined.

Lemma created_documents_witness :
  created parseIsoDate sampleEvents
  /\ Forall (fun d => wellFormed (snd d)) sampleEvents
  /\ NoDup (map fst sampleEvents).
Proof.
  split; [exact sampleEvents_created|].
  exact (created_documents parseIsoDate sampleEvents sampleEvents_created).
Defined.

(** After [sampleEvent], an Event with the title HELLO world? meets the
    unique index. *)
Lemma slug_collision_witness :
  exists d,
    Event_create parseIsoDate online [] sampleEvent = inr (sampleEvents, d)
    /\ slugify (lit " Hello, World! ") = slugify (lit "HELLO world?")
    /\ Event_create parseIsoDate online sampleEvents
         (set Title (Some (lit "HELLO world?")) sampleEvent)
       = inl DuplicateKey.
Proof.
  destruct sample_created as (d & E). exists d. split; [exact E|].
  assert (S : slugify (lit " Hello, World! ") = slugify (lit "HELLO world?"))
    by (vm_compute; reflexivity).
  split; [exact S|].
  destruct (slug_collision parseIsoDate online online [] sampleEvents sampleEvent
              (set Title (Some (lit "HELLO world?")) sampleEvent) d
              (lit " Hello, World! ") (lit "HELLO world?") E eq_refl eq_refl S)
    as (_ & H).
  apply H; [reflexivity|vm_compute; reflexivity|eexists; vm_compute; reflexivity].
Defined.

Lemma create_needs_slug_witness :
  falsy (slug (setSlug None sampleEvent)) = true
  /\ exists failing,
       Event_create parseIsoDate online [] (setSlug None sampleEvent)
       = inl (SchemaValidation failing)
       /\ In PSlug failing.
Proof.
  split; [reflexivity|].
  destruct (create_needs_slug parseIsoDate online [] (setSlug None sampleEvent) eq_refl)
    as (ps & E & I & _).
  exists ps. split; assumption.
Defined.

(** The Booking of Ann is stored a second time. *)
Lemma booking_repeat_witness :
  Booking_create online sampleEvents [] (mkBooking 1%N (lit " Ann@Example.COM "))
  = inr ([mkBooking 1%N (lit "ann@example.com")], mkBooking 1%N (lit "ann@example.com"))
  /\ Booking_create online sampleEvents [mkBooking 1%N (lit "ann@example.com")]
       (mkBooking 1%N (lit " Ann@Example.COM "))
     = inr ([mkBooking 1%N (lit "ann@example.com"); mkBooking 1%N (lit "ann@example.com")],
            mkBooking 1%N (lit "ann@example.com")).
Proof.
  assert (E : Booking_create online sampleEvents [] (mkBooking 1%N (lit " Ann@Example.COM "))
              = inr ([mkBooking 1%N (lit "ann@example.com")],
                     mkBooking 1%N (lit "ann@example.com")))
    by (vm_compute; reflexivity).
  split; [exact E|].
  exact (proj1 (booking_repeat online sampleEvents [] _ _ _ E)).
Defined.

Lemma booking_hook_email_unreached_witness :
  test emailRegex (toLowerCase (trim (lit "nobody"))) = false
  /\ Booking_create online sampleEvents [] (mkBooking 1%N (lit "nobody"))
     = inl (SchemaValidation [PEmail]).
Proof.
  destruct (booking_hook_email_unreached online sampleEvents []
              (mkBooking 1%N (lit "nobody"))) as (_ & H).
  split; [vm_compute; reflexivity|]. apply H. vm_compute. reflexivity.
Defined.

Lemma route_slug_normal_witness :
  slugify (lit " Hello, World! ") <> []
  /\ normalizeAndValidateSlug (Some (slugify (lit " Hello, World! ")))
     = Some (slugify (lit " Hello, World! ")).
Proof.
  destruct route_slug_normal as (_ & _ & H).
  assert (N : slugify (lit " Hello, World! ") <> []) by (vm_compute; discriminate).
  split; [exact N|exact (H _ N)].
Defined.

Lemma GET_found_witness :
  status (GET online sampleEvents (Some (lit " Hello-World "))) = 200%N
  /\ exists d,
       GET online sampleEvents (Some (lit " Hello-World "))
       = json (BEvent (lit "API fetched successfully") d) 200
       /\ In d sampleEvents.
Proof.
  assert (S : status (GET online sampleEvents (Some (lit " Hello-World "))) = 200%N)
    by (vm_compute; reflexivity).
  split; [exact S|].
  destruct (GET_found online sampleEvents (Some (lit " Hello-World "))) as (_ & H & _).
  destruct (H S) as (_ & _ & d & G & I & _). exists d. split; assumption.
Defined.

(** The parameter -hello-world is of the pattern of the route and finds
    nothing. *)
Lemma GET_unshaped_witness :
  created parseIsoDate sampleEvents
  /\ normalizeAndValidateSlug (Some (lit "-hello-world")) = Some (lit "-hello-world")
  /\ startsWith isDash (lit "-hello-world") = true
  /\ status (GET online sampleEvents (Some (lit "-hello-world"))) = 404%N.
Proof.
  assert (N : normalizeAndValidateSlug (Some (lit "-hello-world"))
              = Some (lit "-hello-world")) by (vm_compute; reflexivity).
  assert (St : startsWith isDash (lit "-hello-world") = true) by reflexivity.
  split; [exact sampleEvents_created|]. split; [exact N|]. split; [exact St|].
  destruct (GET_unshaped parseIsoDate online sampleEvents _ _ sampleEvents_created N
              (or_introl St)) as (_ & H).
  exact (H eq_refl eq_refl).
Defined.

Lemma page_follows_status_witness :
  status (GET online sampleEvents (Some (lit "hello-world"))) = 200%N
  /\ EventDetailsPage (GET online sampleEvents (Some (lit "hello-world"))) = EventSection.
Proof.
  destruct (page_follows_status online sampleEvents (Some (lit "hello-world")))
    as ((_ & H) & _).
  assert (S : status (GET online sampleEvents (Some (lit "hello-world"))) = 200%N)
    by (vm_compute; reflexivity).
  split; [exact S|exact (H S)].
Defined.

Lemma POST_effect_witness :
  exists response events',
    POST parseIsoDate online [] (mkRequest (inr sampleForm)) = (response, events')
    /\ status response = 201%N
    /\ created parseIsoDate events'.
Proof.
  destruct (POST parseIsoDate online [] (mkRequest (inr sampleForm)))
    as [response events'] eqn:E.
  exists response, events'. split; [reflexivity|].
  destruct (POST_effect parseIsoDate online [] events' _ response E) as (_ & C).
  split; [|exact (C (created_empty _))].
  vm_compute in E. injection E as <- _. reflexivity.
Defined.

(** The Event of [sampleForm] is found under Hello-World. *)
Lemma POST_then_GET_witness :
  exists response events' d,
    POST parseIsoDate online [] (mkRequest (inr sampleForm)) = (response, events')
    /\ body response = BEvent (lit "Event created successfully") d
    /\ GET online events' (Some (lit " Hello-World "))
       = json (BEvent (lit "API fetched successfully") d) 200.
Proof.
  destruct (POST parseIsoDate online [] (mkRequest (inr sampleForm)))
    as [response events'] eqn:E.
  assert (B : exists d, body response = BEvent (lit "Event created successfully") d
                        /\ slug (snd d) = Some (lit "hello-world")).
  { vm_compute in E. injection E as <- _. eexists. split; reflexivity. }
  destruct B as (d & B & Sd). exists response, events', d.
  split; [reflexivity|]. split; [exact B|].
  destruct (POST_then_GET parseIsoDate online online [] events' _ response _ d E B)
    as (s & Sl & H & _).
  rewrite Sd in Sl. injection Sl as <-.
  apply H; [discriminate|reflexivity|reflexivity|vm_compute; reflexivity].
Defined.


(** A form with a title alone is answered with 500. *)
Lemma POST_needs_slug_witness :
  prop "slug" [(lit "title", lit "Hello")] = None
  /\ status (fst (POST parseIsoDate online sampleEvents
                    (mkRequest (inr [(lit "title", lit "Hello")])))) = 500%N
  /\ snd (POST parseIsoDate online sampleEvents
            (mkRequest (inr [(lit "title", lit "Hello")]))) = sampleEvents.
Proof.
  assert (P : prop "slug" [(lit "title", lit "Hello")] = None) by (vm_compute; reflexivity).
  split; [exact P|].
  destruct (POST_needs_slug parseIsoDate online sampleEvents
              (mkRequest (inr [(lit "title", lit "Hello")]))
              [(lit "title", lit "Hello")] eq_refl P) as (H1 & H2 & _).
  split; assumption.
Defined.

(** Three calls, of which two are suspended before the promise is
    fulfilled: one attempt to connect. *)
Lemma connect_once_witness :
  loadModule (Some (lit "mongodb://localhost/app")) None
  = Some (mkProcess (Some (lit "mongodb://localhost/app")) (mkCache None None) 0 [] [])
  /\ attempts
       (run [Call 1; Call 2; Settle (inr mongooseInstance); Resume 2; Call 3; Resume 1]
          (mkProcess (Some (lit "mongodb://localhost/app")) (mkCache None None) 0 [] []))
     = 1%nat.
Proof.
  split; [reflexivity|].
  destruct (connect_once (Some (lit "mongodb://localhost/app"))
              (mkProcess (Some (lit "mongodb://localhost/app")) (mkCache None None) 0 [] [])
              [Call 1; Call 2; Settle (inr mongooseInstance); Resume 2; Call 3; Resume 1]
              eq_refl) as (_ & _ & H).
  apply H. exists 1%nat. now left.
Defined.

(** The promise is rejected: the call that comes later fails as the first
    one has, and there is no second attempt. *)
Lemma outcomes_agree_witness :
  In (1%nat, Failed ConnectionFailed)
     (returned (run [Call 1; Settle (inl ConnectionFailed); Resume 1]
        (mkProcess (Some (lit "mongodb://localhost/app")) (mkCache None None) 0 [] [])))
  /\ attempts
       (run ([Call 1; Settle (inl ConnectionFailed); Resume 1] ++ [Call 2; Resume 2])
          (mkProcess (Some (lit "mongodb://localhost/app")) (mkCache None None) 0 [] []))
     = attempts
         (run [Call 1; Settle (inl ConnectionFailed); Resume 1]
            (mkProcess (Some (lit "mongodb://localhost/app")) (mkCache None None) 0 [] []))
  /\ forall k o,
       In (k, o)
          (returned
             (run ([Call 1; Settle (inl ConnectionFailed); Resume 1] ++ [Call 2; Resume 2])
                (mkProcess (Some (lit "mongodb://localhost/app")) (mkCache None None) 0 [] []))) ->
       o = Failed ConnectionFailed.
Proof.
  destruct (outcomes_agree (Some (lit "mongodb://localhost/app"))
              (mkProcess (Some (lit "mongodb://localhost/app")) (mkCache None None) 0 [] [])
              [Call 1; Settle (inl ConnectionFailed); Resume 1] eq_refl) as (_ & H).
  assert (I : In (1%nat, Failed ConnectionFailed)
                (returned (run [Call 1; Settle (inl ConnectionFailed); Resume 1]
                   (mkProcess (Some (lit "mongodb://localhost/app")) (mkCache None None)
                      0 [] [])))) by (now left).
  split; [exact I|exact (H 1%nat ConnectionFailed I [Call 2; Resume 2])].
Defined.



(** A module loaded with the cache of a connection does not connect. *)
Lemma reload_reuses_witness :
  loadModule (Some (lit "mongodb://localhost/app"))
    (Some (mkCache (Some mongooseInstance) (Some (Fulfilled mongooseInstance))))
  = Some (mkProcess (Some (lit "mongodb://localhost/app"))
            (mkCache (Some mongooseInstance) (Some (Fulfilled mongooseInstance))) 0 [] [])
  /\ attempts
       (run [Call 1; Call 2]
          (mkProcess (Some (lit "mongodb://localhost/app"))
             (mkCache (Some mongooseInstance) (Some (Fulfilled mongooseInstance))) 0 [] []))
     = 0%nat.
Proof.
  split; [reflexivity|].
  destruct (reload_reuses (Some (lit "mongodb://localhost/app"))
              (mkCache (Some mongooseInstance) (Some (Fulfilled mongooseInstance)))
              (mkProcess (Some (lit "mongodb://localhost/app"))
                 (mkCache (Some mongooseInstance) (Some (Fulfilled mongooseInstance)))
                 0 [] [])
              [Call 1; Call 2] eq_refl) as (_ & H & _).
  - left. discriminate.
  - exact H.
Defined.
